(** * daisyui-theme-extractor: the extraction and normalisation pipeline

    A shallow embedding of [src/index.ts]: the two CSS micro-grammars, the
    style conversion ([convertStyles]), the multi-candidate theme module
    lookup ([extractThemeData]) and the per-theme loop of [main].

    Conventions of the embedding.
    - A JavaScript string is a [string]: a sequence of code units, here
      restricted to the range 0..255.
    - A plain object used as a record of properties ([BaseStyles], the
      [result] of [main]) is the list of its own enumerable entries in the
      order of their creation.  [Obj.entries] and [Obj.keys] put them in
      the order JavaScript iterates them (array indices first, ascending);
      [Obj.assign] is the assignment [o[k] = v] on an object made by a
      literal, where the name [__proto__] reaches the accessor of
      [Object.prototype] and creates no property.  A nested record is a
      plain object whose prototype is [Object.prototype].
    - A [Map] is a [gmap]; a [Set] is the list of its elements in insertion
      order.
    - What lives outside the repository (culori's [formatHex], node's
      [path.join], [existsSync], dynamic [import], [require.resolve]) is a
      field of the class [Host]. *)

From Stdlib Require Import String Ascii List Bool Arith NArith Lia Permutation.
From stdpp Require Import base option gmap strings.
Import ListNotations.

Local Open Scope list_scope.

(** ** JavaScript string primitives used by the program *)

Module Js.

(** The double quote and the line feed, which string literals of this
    file do not spell out. *)
Definition dq : string := String (ascii_of_nat 34) EmptyString.
Definition nl : string := String (ascii_of_nat 10) EmptyString.

(** [WhiteSpace] and [LineTerminator] code units below 256: the set used
    both by [String.prototype.trim] and by the class [\s]. *)
Definition is_space (c : ascii) : bool :=
  existsb (Nat.eqb (nat_of_ascii c)) [9; 10; 11; 12; 13; 32; 160].

Fixpoint trimStart (s : string) : string :=
  match s with
  | String c s' => if is_space c then trimStart s' else s
  | EmptyString => EmptyString
  end.

Fixpoint trimEnd (s : string) : string :=
  match s with
  | String c s' =>
      match trimEnd s' with
      | EmptyString => if is_space c then EmptyString else String c EmptyString
      | r => String c r
      end
  | EmptyString => EmptyString
  end.

Definition trim (s : string) : string := trimEnd (trimStart s).

(** [s.startsWith(p)] *)
Definition startsWith (s p : string) : bool := String.prefix p s.

(** [s.includes(sub)] *)
Fixpoint includes (s sub : string) : bool :=
  String.prefix sub s ||
  match s with
  | String _ s' => includes s' sub
  | EmptyString => false
  end.

Fixpoint drop (n : nat) (s : string) : string :=
  match n, s with
  | S n', String _ s' => drop n' s'
  | _, _ => s
  end.

(** [s.replace(pat, rep)] for a string pattern: the first occurrence only.
    (The replacement texts of the program contain no [$].) *)
Fixpoint replace (s pat rep : string) : string :=
  if String.prefix pat s then rep +:+ drop (String.length pat) s
  else match s with
       | String c s' => String c (replace s' pat rep)
       | EmptyString => EmptyString
       end.

(** [s.split(sep)] for a one-character separator. *)
Fixpoint split (sep : ascii) (s : string) : list string :=
  match s with
  | EmptyString => [EmptyString]
  | String c s' =>
      if Ascii.eqb c sep then EmptyString :: split sep s'
      else match split sep s' with
           | piece :: rest => String c piece :: rest
           | [] => [String c EmptyString]
           end
  end.

(** A [Set] of strings: its elements in insertion order. *)
Definition Set_has (s : list string) (x : string) : bool :=
  existsb (String.eqb x) s.

Definition Set_add (s : list string) (x : string) : list string :=
  if Set_has s x then s else s ++ [x].

(** [[...new Set(xs)]] *)
Definition Set_of (xs : list string) : list string :=
  fold_left Set_add xs [].

End Js.

(** ** StyleKeyCleaner: lines 204-212 of [convertStyles] *)

Definition cleanKey (key : string) : string :=
  if Js.startsWith key "--color-" then Js.replace key "--color-" ""
  else if Js.startsWith key "--" then Js.replace key "--" ""
  else key.

(** ** The regular expressions of the two parsers

    The three patterns of the program are sequences of quantified character
    classes, some of them wrapped in a capturing group, with an optional
    end anchor.  [exec_at] is the backtracking matcher of ECMAScript on such
    sequences: greedy quantifiers try the longest run first and give back
    one code unit at a time, the lazy one tries the shortest run first. *)

Module Regex.

Inductive quant := Once | Optional | Many0 | Many1 | Lazy0.

Inductive node :=
| Cls (p : ascii -> bool) (q : quant)   (* a quantified class *)
| Grp (p : ascii -> bool) (q : quant)   (* the same inside ( ) *)
| Eos.                                  (* $ without the m flag *)

Definition pattern := list node.

Definition chr (c : ascii) : node := Cls (Ascii.eqb c) Once.

Fixpoint lit (s : string) : pattern :=
  match s with
  | String c s' => chr c :: lit s'
  | EmptyString => []
  end.

Definition snoc (s : string) (c : ascii) : string := s +:+ String c EmptyString.

Section Quantifier.
Context {R : Type} (p : ascii -> bool).
(** [k taken rest]: the rest of the pattern, run after this node has
    consumed [taken] and left [rest]. *)
Context (k : string -> string -> option R).

Fixpoint greedy (taken rest : string) : option R :=
  match rest with
  | String c rest' =>
      if p c then
        match greedy (snoc taken c) rest' with
        | Some r => Some r
        | None => k taken rest
        end
      else k taken rest
  | EmptyString => k taken rest
  end.

Fixpoint lazy (taken rest : string) : option R :=
  match k taken rest with
  | Some r => Some r
  | None =>
      match rest with
      | String c rest' => if p c then lazy (snoc taken c) rest' else None
      | EmptyString => None
      end
  end.

Definition once (rest : string) : option R :=
  match rest with
  | String c rest' => if p c then k (String c EmptyString) rest' else None
  | EmptyString => None
  end.

Definition quantified (q : quant) (rest : string) : option R :=
  match q with
  | Once => once rest
  | Optional =>
      match once rest with
      | Some r => Some r
      | None => k EmptyString rest
      end
  | Many0 => greedy EmptyString rest
  | Many1 =>
      match rest with
      | String c rest' => if p c then greedy (String c EmptyString) rest' else None
      | EmptyString => None
      end
  | Lazy0 => lazy EmptyString rest
  end.
End Quantifier.

(** One attempt at the current position: the captures of the groups in
    order, and the input left after the match. *)
Fixpoint exec_at (pat : pattern) (caps : list string) (s : string)
  : option (list string * string) :=
  match pat with
  | [] => Some (caps, s)
  | Cls p q :: pat' => quantified p (fun _ rest => exec_at pat' caps rest) q s
  | Grp p q :: pat' =>
      quantified p (fun taken rest => exec_at pat' (caps ++ [taken]) rest) q s
  | Eos :: pat' =>
      match s with
      | EmptyString => exec_at pat' caps s
      | String _ _ => None
      end
  end.

(** The loop [while ((match = re.exec(text)) !== null)] of a pattern with
    the [g] flag: the matches from left to right, each search resuming at
    the end of the previous match.  [skip] counts the code units of the
    last match that are still to be passed over.  (None of the patterns
    of the program matches the empty string.) *)
Fixpoint execAll (pat : pattern) (skip : nat) (s : string) : list (list string) :=
  match skip, s with
  | S n, String _ s' => execAll pat n s'
  | S _, EmptyString => []
  | O, _ =>
      match exec_at pat [] s with
      | Some (caps, rest) =>
          caps ::
          match s with
          | String _ s' => execAll pat (String.length s - String.length rest - 1) s'
          | EmptyString => []
          end
      | None =>
          match s with
          | String _ s' => execAll pat O s'
          | EmptyString => []
          end
      end
  end.

(** [s.split(re)[0]]: the text before the leftmost match, all of [s] when
    there is none. *)
Fixpoint splitHead (pat : pattern) (s : string) : string :=
  match exec_at pat [] s with
  | Some _ => EmptyString
  | None =>
      match s with
      | String c s' => String c (splitHead pat s')
      | EmptyString => EmptyString
      end
  end.

(** Capture [i] of a match, counted from 1 as in [match[i]]. *)
Definition group (i : nat) (caps : list string) : string :=
  nth (i - 1) caps EmptyString.

Definition quote (c : ascii) : bool := Ascii.eqb c "034" || Ascii.eqb c "'".
Definition any (_ : ascii) : bool := true.
Definition non (c d : ascii) : bool := negb (Ascii.eqb c d).

End Regex.

(** ** Plain objects as ordered entry lists *)

Module Obj.
Section Entries.
Context {V : Type}.

(** Defining the own property [k] of [o] with value [v]: an existing
    property keeps its place, a new one goes last. *)
Fixpoint set (o : list (string * V)) (k : string) (v : V) : list (string * V) :=
  match o with
  | [] => [(k, v)]
  | (k', v') :: o' =>
      if String.eqb k' k then (k', v) :: o' else (k', v') :: set o' k v
  end.

Fixpoint get (o : list (string * V)) (k : string) : option V :=
  match o with
  | [] => None
  | (k', v') :: o' => if String.eqb k' k then Some v' else get o' k
  end.

(** The own property names in the order of their creation. *)
Definition names (o : list (string * V)) : list string := map fst o.

(** [{ ...o, ...base }] *)
Definition spread (o base : list (string * V)) : list (string * V) :=
  fold_left (fun acc kv => set acc (fst kv) (snd kv)) base o.
End Entries.

(** *** The order of own properties *)

Definition digit (c : ascii) : option N :=
  let n := N_of_ascii c in
  if (48 <=? n)%N && (n <=? 57)%N then Some (n - 48)%N else None.

Fixpoint digits (acc : N) (s : string) : option N :=
  match s with
  | EmptyString => Some acc
  | String c s' =>
      match digit c with
      | Some d => digits (acc * 10 + d)%N s'
      | None => None
      end
  end.

(** An array index: the canonical decimal form of an integer from 0 to
    2^32 - 2. *)
Definition isIndex (k : string) : option N :=
  match k with
  | EmptyString => None
  | String c rest =>
      if Ascii.eqb c "0" && negb (String.eqb rest EmptyString) then None
      else match digits 0 k with
           | Some n => if (n <=? 4294967294)%N then Some n else None
           | None => None
           end
  end.

Section Order.
Context {A : Type} (key : A -> string).

Fixpoint insertIndex (n : N) (x : A) (l : list (N * A)) : list (N * A) :=
  match l with
  | [] => [(n, x)]
  | (m, y) :: l' =>
      if (n <=? m)%N then (n, x) :: l else (m, y) :: insertIndex n x l'
  end.

(** The elements whose key is an array index, by ascending index. *)
Definition indexed (l : list A) : list (N * A) :=
  fold_right
    (fun x acc =>
       match isIndex (key x) with
       | Some n => insertIndex n x acc
       | None => acc
       end) [] l.

(** The other elements, in the order given. *)
Definition named (l : list A) : list A :=
  List.filter
    (fun x => match isIndex (key x) with Some _ => false | None => true end) l.

(** [OrdinaryOwnPropertyKeys]: array indices in ascending order, then the
    other names in the order of their creation. *)
Definition ownOrder (l : list A) : list A := map snd (indexed l) ++ named l.
End Order.

(** [Object.entries(o)] *)
Definition entries {V : Type} (o : list (string * V)) : list (string * V) :=
  ownOrder fst o.

(** [Object.keys(o)] *)
Definition keys {V : Type} (o : list (string * V)) : list string :=
  map fst (entries o).

(** *** Assignment to an object made by a literal *)

(** An object that starts as [{}] and is filled by assignments: its own
    entries, and whether an object on its prototype chain, below
    [Object.prototype], owns a data property named [__proto__]. *)
Record object (V : Type) := { own : list (string * V); chain : bool }.
Arguments own {V}.
Arguments chain {V}.

(** [o[k] = v].  For every name but [__proto__] the own property is set.
    For [__proto__], unless the object or its chain owns a data property
    of this name, the setter of [Object.prototype] runs: a value that is an
    object becomes the prototype, any other value is ignored, and in both
    cases no own property appears.  [asPrototype v] tells whether [v] is an
    object and, if so, whether a data property [__proto__] is found on it
    or above it. *)
Definition assign {V : Type} (asPrototype : V -> option bool)
    (o : object V) (k : string) (v : V) : object V :=
  if String.eqb k "__proto__" && negb (chain o) &&
     match get (own o) k with Some _ => false | None => true end
  then
    match asPrototype v with
    | Some c => {| own := own o; chain := c |}
    | None => o
    end
  else {| own := set (own o) k v; chain := chain o |}.

End Obj.

(** ** Data model (lines 19-48) *)

(** A JavaScript number; the program never inspects one. *)
Definition number := Z.

Inductive scalar :=
| SStr (s : string)
| SNum (n : number).

Inductive StyleValue :=
| VStr (s : string)
| VNum (n : number)
| VRec (fields : list (string * scalar)).

Definition BaseStyles := list (string * StyleValue).

Record ThemeError := { theme : string; error : string }.

Record CssThemeData := { name : string; styles : BaseStyles }.

(** ** The host: what the program calls but does not define *)

(** culori's [formatHex(colorString)]: it throws, or returns [undefined],
    or returns a string. *)
Inductive formatted :=
| FormatThrows
| FormatUndefined
| FormatString (hex : string).

(** What the default export of a theme module does when called with
    [{ addBase }]: the style objects it hands to [addBase], in order, and
    whether it then throws instead of returning. *)
Inductive defaultExport :=
| NotAFunction
| ThemeFunction (bases : list BaseStyles) (throws : bool).

(** The outcome of [await import(`file://${themePath}`)]. *)
Inductive imported :=
| ImportThrows
| Module_ (default : defaultExport).

Class Host := {
  formatHex : string -> formatted;
  (** [path.join(...segments)] *)
  join : list string -> string;
  (** [process.cwd()] *)
  cwd : string;
  (** [dirname(cwdRequire.resolve("daisyui/package.json"))], [None] when the
      [try] block of strategy 3 throws *)
  cwdDaisyui : option string;
  (** [dirname(require.resolve("daisyui/package.json"))], [None] when the
      [try] block of strategy 4 throws *)
  scriptDaisyui : option string;
  existsSync : string -> bool;
  import : string -> imported;
}.

Section Program.
Context {host : Host}.

(** *** ColorNormalizer (lines 187-194 and 214-225) *)

Definition convertToHex (colorString : string) : string :=
  match formatHex colorString with
  | FormatString hex =>
      (* [hex || colorString]: the empty string is falsy *)
      match hex with
      | EmptyString => colorString
      | _ => hex
      end
  | FormatUndefined => colorString
  | FormatThrows => colorString
  end.

Definition isColor (value : string) : bool :=
  Js.includes value "oklch(" || Js.includes value "rgb(" ||
  Js.includes value "hsl(" || Js.includes value "lch(".

(** The value stored under the cleaned key. *)
Definition convertValue (value : StyleValue) : StyleValue :=
  match value with
  | VStr s => if isColor s then VStr (convertToHex s) else value
  | _ => value
  end.

(** *** convertStyles (lines 199-229) *)

(** A value as a prototype: only a nested record is an object. *)
Definition prototypeOfValue (value : StyleValue) : option bool :=
  match value with
  | VRec fields =>
      Some (match Obj.get fields "__proto__" with Some _ => true | None => false end)
  | VStr _ | VNum _ => None
  end.

(** The loop runs over [Object.entries(styles)] and assigns into
    [converted], which starts as [{}]; the result lists the own entries of
    [converted]. *)
Definition convertStyles (styles : BaseStyles) : BaseStyles :=
  Obj.own
    (fold_left
       (fun converted kv =>
          Obj.assign prototypeOfValue converted
            (cleanKey (fst kv)) (convertValue (snd kv)))
       (Obj.entries styles) {| Obj.own := []; Obj.chain := false |}).

(** *** ReferencedThemeNameParser (lines 234-257) *)

(** [/@plugin\s+["']daisyui["']\s*\{[^}]*themes:\s*([^;]+);/gs] *)
Definition pluginRegex : Regex.pattern :=
  Regex.lit "@plugin" ++
  [Regex.Cls Js.is_space Regex.Many1; Regex.Cls Regex.quote Regex.Once] ++
  Regex.lit "daisyui" ++
  [Regex.Cls Regex.quote Regex.Once; Regex.Cls Js.is_space Regex.Many0;
   Regex.chr "{"; Regex.Cls (Regex.non "}") Regex.Many0] ++
  Regex.lit "themes:" ++
  [Regex.Cls Js.is_space Regex.Many0; Regex.Grp (Regex.non ";") Regex.Many1;
   Regex.chr ";"].

(** [/\s+--/] *)
Definition flagRegex : Regex.pattern :=
  [Regex.Cls Js.is_space Regex.Many1; Regex.chr "-"; Regex.chr "-"].

(** The callback of [.map] on line 246. *)
Definition cleanThemeName (t : string) : string :=
  Js.trim (Regex.splitHead flagRegex (Js.trim t)).

Definition nonEmpty (t : string) : bool := negb (String.length t =? 0).

(** Lines 244-251: the names of one [themes:] value. *)
Definition themesOfBlock (themesString : string) : list string :=
  List.filter nonEmpty (map cleanThemeName (Js.split "," themesString)).

Definition extractThemeNamesFromCss (cssContent : string) : list string :=
  let themeNames :=
    fold_left
      (fun themeNames match_ => themeNames ++ themesOfBlock (Regex.group 1 match_))
      (Regex.execAll pluginRegex 0 cssContent) [] in
  Js.Set_of themeNames.

(** *** InlineThemeParser (lines 262-311) *)

(** [/@plugin\s+["']daisyui\/theme["']\s*\{([\s\S]*?)\}/g] *)
Definition inlineRegex : Regex.pattern :=
  Regex.lit "@plugin" ++
  [Regex.Cls Js.is_space Regex.Many1; Regex.Cls Regex.quote Regex.Once] ++
  Regex.lit "daisyui/theme" ++
  [Regex.Cls Regex.quote Regex.Once; Regex.Cls Js.is_space Regex.Many0;
   Regex.chr "{"; Regex.Grp Regex.any Regex.Lazy0; Regex.chr "}"].

(** [/^([^:]+):\s*([^;]+);?\s*$/], attempted at index 0 only because of
    the leading [^]. *)
Definition propRegex : Regex.pattern :=
  [Regex.Grp (Regex.non ":") Regex.Many1; Regex.chr ":";
   Regex.Cls Js.is_space Regex.Many0; Regex.Grp (Regex.non ";") Regex.Many1;
   Regex.Cls (Ascii.eqb ";") Regex.Optional; Regex.Cls Js.is_space Regex.Many0;
   Regex.Eos].

(** The two variables a block body is folded into. *)
Record block := { themeName : string; blockStyles : BaseStyles }.

(** Lines 278-299: the body of the loop over the lines of a block.  A key
    stored in [styles] starts with two dashes or is [color-scheme]: it is
    neither [__proto__] nor an array index, so the assignment
    [styles[cleanKey] = cleanValue] sets an own property, and the entries
    are iterated in the order of their creation. *)
Definition parseLine (b : block) (line : string) : block :=
  let trimmed := Js.trim line in
  if (String.length trimmed =? 0) || Js.startsWith trimmed "//"
     || Js.startsWith trimmed "/*" then b
  else
    match Regex.exec_at propRegex [] trimmed with
    | Some (caps, _) =>
        let cleanKey := Js.trim (Regex.group 1 caps) in
        let cleanValue := Js.trim (Regex.group 2 caps) in
        if String.eqb cleanKey "name" then
          {| themeName := cleanValue; blockStyles := blockStyles b |}
        else if Js.startsWith cleanKey "--" then
          {| themeName := themeName b;
             blockStyles := Obj.set (blockStyles b) cleanKey (VStr cleanValue) |}
        else if String.eqb cleanKey "color-scheme" then
          {| themeName := themeName b;
             blockStyles := Obj.set (blockStyles b) "color-scheme" (VStr cleanValue) |}
        else b
    | None => b
    end.

Definition parseBlock (blockContent : string) : block :=
  fold_left parseLine (Js.split "010" blockContent)
    {| themeName := EmptyString; blockStyles := [] |}.

(** Lines 302-307: what a block pushes onto [themes]. *)
Definition emitBlock (blockContent : string) : list CssThemeData :=
  let b := parseBlock blockContent in
  if nonEmpty (themeName b) && (0 <? length (Obj.keys (blockStyles b))) then
    [{| name := themeName b; styles := convertStyles (blockStyles b) |}]
  else [].

Definition extractInlineThemesFromCss (cssContent : string) : list CssThemeData :=
  fold_left
    (fun themes match_ => themes ++ emitBlock (Regex.group 1 match_))
    (Regex.execAll inlineRegex 0 cssContent) [].

(** *** ThemeModuleResolver (lines 333-463) *)

(** What [extractThemeData] ends with: the converted styles it returns,
    or the message of the [Error] it throws. *)
Inductive resolution :=
| Resolved (convertedStyles : BaseStyles)
| NotFound (message : string).

Definition cwdPaths (themeName : string) : list string :=
  [ join [cwd; "node_modules"; "daisyui"; "theme"; themeName; "index.js"];
    join [cwd; "node_modules"; "daisyui"; "dist"; "theme"; themeName; "index.js"];
    join [cwd; "node_modules"; "daisyui"; "src"; "theming"; "themes";
          themeName +:+ ".js"];
    join [cwd; "node_modules"; "daisyui"; "dist"; "themes"; themeName +:+ ".js"] ].

Definition parentPaths (themeName : string) : list string :=
  [ join [cwd; ".."; "node_modules"; "daisyui"; "theme"; themeName; "index.js"];
    join [cwd; ".."; "node_modules"; "daisyui"; "dist"; "theme"; themeName;
          "index.js"] ].

(** The four paths pushed by strategies 3 and 4 once the package
    directory is known. *)
Definition packagePaths (daisyuiPath themeName : string) : list string :=
  [ join [daisyuiPath; "theme"; themeName; "index.js"];
    join [daisyuiPath; "dist"; "theme"; themeName; "index.js"];
    join [daisyuiPath; "src"; "theming"; "themes"; themeName +:+ ".js"];
    join [daisyuiPath; "dist"; "themes"; themeName +:+ ".js"] ].

Definition resolvedPaths (dir : option string) (themeName : string) : list string :=
  match dir with
  | Some daisyuiPath => packagePaths daisyuiPath themeName
  | None => []
  end.

Definition allPossiblePaths (themeName : string) : list string :=
  cwdPaths themeName ++ parentPaths themeName ++
  resolvedPaths cwdDaisyui themeName ++ resolvedPaths scriptDaisyui themeName.

Definition uniquePaths (themeName : string) : list string :=
  Js.Set_of (allPossiblePaths themeName).

Definition existingPaths (themeName : string) : list string :=
  List.filter existsSync (uniquePaths themeName).

(** [extractedStyles] after the theme function has made its [addBase]
    calls. *)
Definition addBases (bases : list BaseStyles) : BaseStyles :=
  fold_left Obj.spread bases [].

(** Lines 428-458.  The first component lists the module specifiers
    handed to [import], in order. *)
Fixpoint tryPaths (paths : list string) : list string * option BaseStyles :=
  match paths with
  | [] => ([], None)
  | themePath :: rest =>
      let specifier := "file://" +:+ themePath in
      match import specifier with
      | Module_ (ThemeFunction bases false) =>
          ([specifier], Some (convertStyles (addBases bases)))
      | Module_ (ThemeFunction _ true)   (* the call throws: caught *)
      | Module_ NotAFunction             (* [continue] *)
      | ImportThrows =>                  (* the import throws: caught *)
          let (log, r) := tryPaths rest in (specifier :: log, r)
      end
  end.

Definition notFoundMessage (themeName : string) : string :=
  "Could not import theme '" +:+ themeName +:+
  "' from any known path in node_modules".

Definition extractThemeData (themeName : string) : list string * resolution :=
  let (log, r) := tryPaths (existingPaths themeName) in
  match r with
  | Some convertedStyles => (log, Resolved convertedStyles)
  | None => (log, NotFound (notFoundMessage themeName))
  end.

(** *** ExtractionOrchestrator (lines 468-556 of [main]) *)

(** The state of a run: the two accumulators of [main] ([result] by its
    own entries and the flag of [Obj.object]), and the theme names
    [extractThemeData] was called with. *)
Record run := {
  result : list (string * BaseStyles);
  resultChain : bool;
  errors : list ThemeError;
  resolverCalls : list string;
}.

(** [readCssFile]; [None] stands for the call throwing: the file is not
    found, or [readFileSync] fails on it.  Either way [main] catches the
    error and ends the process. *)
Definition readCssFile (cssFile : option string)
  : option (list string * list CssThemeData) :=
  match cssFile with
  | None => None
  | Some cssContent =>
      Some (extractThemeNamesFromCss cssContent, extractInlineThemesFromCss cssContent)
  end.

(** Lines 486-495. *)
Definition mergeThemeNames (allThemes themeNames : list string) : list string :=
  if 0 <? length themeNames then Js.Set_of (allThemes ++ themeNames) else allThemes.

(** Lines 497-512. *)
Definition mergeInlineThemes (allThemes : list string) (inlineThemes : list CssThemeData)
  : list string * gmap string BaseStyles :=
  if 0 <? length inlineThemes then
    (Js.Set_of (allThemes ++ map name inlineThemes),
     fold_left (fun m t => <[name t := styles t]> m) inlineThemes ∅)
  else (allThemes, ∅).

(** A style map as a prototype: it is an object; a data property
    [__proto__] is looked for among its own entries (its own prototype chain
    is taken to hold none). *)
Definition prototypeOfStyles (styles : BaseStyles) : option bool :=
  Some (match Obj.get styles "__proto__" with Some _ => true | None => false end).

(** [result[theme] = styles] *)
Definition storeResult (r : run) (theme : string) (styles : BaseStyles)
    (calls : list string) : run :=
  let o := Obj.assign prototypeOfStyles
             {| Obj.own := result r; Obj.chain := resultChain r |} theme styles in
  {| result := Obj.own o; resultChain := Obj.chain o;
     errors := errors r; resolverCalls := calls |}.

(** Lines 537-555: the body of the loop over [allThemes]. *)
Definition processTheme (inlineThemeMap : gmap string BaseStyles)
    (r : run) (theme : string) : run :=
  match inlineThemeMap !! theme with
  | Some inlineStyles => storeResult r theme inlineStyles (resolverCalls r)
  | None =>
      match snd (extractThemeData theme) with
      | Resolved themeData =>
          storeResult r theme themeData (resolverCalls r ++ [theme])
      | NotFound message =>
          {| result := result r; resultChain := resultChain r;
             errors := errors r ++ [{| theme := theme; error := message |}];
             resolverCalls := resolverCalls r ++ [theme] |}
      end
  end.

(** [result] starts as [{}], [errors] as [[]]. *)
Definition emptyRun : run :=
  {| result := []; resultChain := false; errors := []; resolverCalls := [] |}.

Definition processThemes (inlineThemeMap : gmap string BaseStyles)
    (allThemes : list string) : run :=
  fold_left (processTheme inlineThemeMap) allThemes emptyRun.

(** Lines 473-521: the final name list and the inline lookup; [None]
    when the run ends in [process.exit(1)]. *)
Definition collectThemes (themes : list string) (readCss : bool)
    (cssFile : option string) : option (list string * gmap string BaseStyles) :=
  if readCss then
    match readCssFile cssFile with
    | Some (themeNames, inlineThemes) =>
        Some (mergeInlineThemes (mergeThemeNames themes themeNames) inlineThemes)
    | None => None
    end
  else Some (themes, ∅).

(** [main] from line 471 to line 556: from the point where
    [parseArguments()] has returned [themes] and [readCss] (its own exits
    are those of [Cli.parseArguments] below) to the point where the
    collection is handed to the code that writes the output file.
    [cssFile] is what reading [cssPath] gives. *)
Definition main (themes : list string) (readCss : bool) (cssFile : option string)
  : option run :=
  match collectThemes themes readCss cssFile with
  | Some (allThemes, inlineThemeMap) => Some (processThemes inlineThemeMap allThemes)
  | None => None
  end.

End Program.

(** ** A POSIX rendering of [path.join], for the concrete runs below *)

Module Posix.

(** One step of [normalizeString]: [..] removes the segment before it
    (it is dropped at the root), [.] and empty segments vanish. *)
Definition pushSegment (stack : list string) (seg : string) : list string :=
  if String.eqb seg ".." then removelast stack
  else if String.eqb seg "." || String.eqb seg "" then stack
  else stack ++ [seg].

(** [join] of segments the first of which is absolute. *)
Definition join (segments : list string) : string :=
  "/" +:+ String.concat "/"
    (fold_left pushSegment (flat_map (Js.split "/") segments) []).

End Posix.

(** ** Reference definitions

    What the specification says in its own words, to compare the program
    with. *)

(** Deduplication keeping the first occurrence of every name. *)
Fixpoint firstOccurrences (xs : list string) : list string :=
  match xs with
  | [] => []
  | x :: xs' => x :: List.filter (fun y => negb (String.eqb x y)) (firstOccurrences xs')
  end.

(** A flag marker starts here: white space, one code unit or more, directly
    followed by two dashes. *)
Definition startsFlag (s : string) : bool :=
  match s with
  | String c s' => Js.is_space c && Js.startsWith (Js.trimStart s') "--"
  | EmptyString => false
  end.

(** The string does not start with white space. *)
Definition noLead (s : string) : Prop :=
  match s with
  | String c _ => Js.is_space c = false
  | EmptyString => True
  end.

(** The item cut off from its first flag marker on. *)
Fixpoint truncateAtFlag (s : string) : string :=
  if startsFlag s then EmptyString
  else match s with
       | String c s' => String c (truncateAtFlag s')
       | EmptyString => EmptyString
       end.

(** The rest of [flagRegex] behind the white space: two dashes. *)
Definition twoDashes (rest : string) : option (list string * string) :=
  Regex.exec_at [Regex.chr "-"; Regex.chr "-"] [] rest.

(** The names declared by one [themes:] value: split on commas, strip white
    space, cut the flags off, drop what is empty. *)
Definition spec_namesOfBlock (themesString : string) : list string :=
  List.filter nonEmpty
    (map (fun t => truncateAtFlag (Js.trim t)) (Js.split "," themesString)).

(** [extractNames]: the names of all matched blocks in match order,
    deduplicated. *)
Definition spec_extractNames (cssContent : string) : list string :=
  firstOccurrences
    (flat_map (fun match_ => spec_namesOfBlock (Regex.group 1 match_))
       (Regex.execAll pluginRegex 0 cssContent)).

(** A candidate is usable when its module loads, its default export is a
    function, and calling that function does not throw. *)
Definition usable {host : Host} (themePath : string) : bool :=
  match import ("file://" +:+ themePath) with
  | Module_ (ThemeFunction _ false) => true
  | _ => false
  end.

(** What the loop of [main] stores for a theme: the inline styles when the
    lookup has the name, else what the resolver returns, if anything. *)
Definition stored {host : Host} (inlineThemeMap : gmap string BaseStyles)
    (theme : string) : option BaseStyles :=
  match inlineThemeMap !! theme with
  | Some inlineStyles => Some inlineStyles
  | None =>
      match snd (extractThemeData theme) with
      | Resolved themeData => Some themeData
      | NotFound _ => None
      end
  end.

Definition isStored {host : Host} (inlineThemeMap : gmap string BaseStyles)
    (theme : string) : bool :=
  match stored inlineThemeMap theme with Some _ => true | None => false end.

(** The entry of the error list for a theme the resolver did not find. *)
Definition mkError (theme : string) : ThemeError :=
  {| theme := theme; error := notFoundMessage theme |}.

(** The second priority group as the specification describes it: the four
    layouts of the first group, one directory level up. *)
Definition spec_parentPaths {host : Host} (themeName : string) : list string :=
  [ join [cwd; ".."; "node_modules"; "daisyui"; "theme"; themeName; "index.js"];
    join [cwd; ".."; "node_modules"; "daisyui"; "dist"; "theme"; themeName; "index.js"];
    join [cwd; ".."; "node_modules"; "daisyui"; "src"; "theming"; "themes";
          themeName +:+ ".js"];
    join [cwd; ".."; "node_modules"; "daisyui"; "dist"; "themes"; themeName +:+ ".js"] ].

(** ** A sample installation

    A project in [/home/user/app] with daisyUI installed locally.  The
    theme [light] ships in the themed-directory layout; [dark] has a stale
    file there whose default export is no function, and a working module in
    the distribution layout; the module of [broken] throws when called;
    [ghost] is not installed. *)

Module Sample.

Definition red : string := "oklch(62.8% 0.25768 29.234)".

Definition culori (c : string) : formatted :=
  if String.eqb c red then FormatString "#ff0000"
  else if Js.includes c "var(" then FormatThrows
  else FormatUndefined.

Definition daisyui : string := "/home/user/app/node_modules/daisyui".

Definition lightBase : BaseStyles :=
  [("color-scheme", VStr "light"); ("--color-primary", VStr red);
   ("--radius-box", VStr "1rem"); ("--border", VStr "1px")].

Definition darkBase : BaseStyles :=
  [("color-scheme", VStr "dark"); ("--color-primary", VStr "rgb(var(--p))");
   ("--depth", VNum 1%Z)].

Definition loader (specifier : string) : imported :=
  if String.eqb specifier ("file://" +:+ daisyui +:+ "/theme/light/index.js")
  then Module_ (ThemeFunction [lightBase] false)
  else if String.eqb specifier ("file://" +:+ daisyui +:+ "/theme/dark/index.js")
  then Module_ NotAFunction
  else if String.eqb specifier ("file://" +:+ daisyui +:+ "/dist/theme/dark/index.js")
  then Module_ (ThemeFunction [darkBase; [("--depth", VNum 0%Z)]] false)
  else if String.eqb specifier ("file://" +:+ daisyui +:+ "/theme/broken/index.js")
  then Module_ (ThemeFunction [lightBase] true)
  else ImportThrows.

Definition onDisk (path : string) : bool :=
  Js.Set_has
    [daisyui +:+ "/theme/light/index.js"; daisyui +:+ "/dist/themes/light.js";
     daisyui +:+ "/theme/dark/index.js"; daisyui +:+ "/dist/theme/dark/index.js";
     daisyui +:+ "/theme/broken/index.js"] path.

Definition host : Host := {|
  formatHex := culori;
  join := Posix.join;
  cwd := "/home/user/app";
  cwdDaisyui := Some daisyui;
  scriptDaisyui := Some "/usr/lib/node_modules/daisyui-theme-extractor/node_modules/daisyui";
  existsSync := onDisk;
  import := loader;
|}.

(** A stylesheet with a reference block and an inline block. *)
Definition css : string :=
  "@plugin " +:+ Js.dq +:+ "daisyui" +:+ Js.dq +:+ " {" +:+ Js.nl +:+
  "  themes: light --default, dark --prefersdark;" +:+ Js.nl +:+
  "}" +:+ Js.nl +:+
  "@plugin " +:+ Js.dq +:+ "daisyui/theme" +:+ Js.dq +:+ " {" +:+ Js.nl +:+
  "  name: mediumseagreen;" +:+ Js.nl +:+
  "  default: false;" +:+ Js.nl +:+
  "  color-scheme: light;" +:+ Js.nl +:+
  "  --color-primary: " +:+ red +:+ ";" +:+ Js.nl +:+
  "}" +:+ Js.nl.

End Sample.

(** ** Command line (lines 91-182)

    [parseArgs] of node's [util] and [resolve] of node's [path] are taken
    as given: the first by what it returns, the second as a function. *)

Module Cli.

(** The [values] of [parseArgs], with the defaults of lines 94-116 already
    filled in by it. *)
Record Values := {
  v_themes : string;
  v_output : string;
  v_readCss : bool;
  v_cssPath : string;
  v_help : bool;
}.

Inductive parseArgsResult :=
| ParseArgsThrows
| ParseArgsReturns (values : Values) (positionals : list string).

Record ParsedArguments := {
  themes : list string;
  output : string;
  readCss : bool;
  cssPath : string;
}.

(** A call either ends the process with an exit code or returns. *)
Inductive outcome :=
| Exit (code : nat)
| Return (arguments : ParsedArguments).

(** Line 154: [values.themes || positionals[0] || ""]. *)
Definition themesInput (values : Values) (positionals : list string) : string :=
  match v_themes values with
  | EmptyString =>
      match positionals with
      | String c p :: _ => String c p
      | _ => EmptyString
      end
  | flag => flag
  end.

(** Lines 156-159. *)
Definition splitThemes (themesInput : string) : list string :=
  List.filter nonEmpty (map Js.trim (Js.split "," themesInput)).

Definition parseArguments (resolve : string -> string) (parsed : parseArgsResult)
  : outcome :=
  match parsed with
  | ParseArgsThrows => Exit 1
  | ParseArgsReturns values positionals =>
      if v_help values then Exit 0
      else
        let readCss := v_readCss values in
        let cssPath := resolve (v_cssPath values) in
        let themes := splitThemes (themesInput values positionals) in
        if negb readCss && (length themes =? 0) then Exit 1
        else Return {| themes := themes; output := resolve (v_output values);
                       readCss := readCss; cssPath := cssPath |}
  end.

End Cli.

(** ** More reference definitions *)

(** Every code unit of the string satisfies [p]. *)
Fixpoint allb (p : ascii -> bool) (s : string) : bool :=
  match s with
  | String c s' => p c && allb p s'
  | EmptyString => true
  end.

(** The code unit occurs in the string. *)
Definition contains (c : ascii) (s : string) : bool :=
  negb (allb (Regex.non c) s).

(** What a quantifier allows a run of code units to be. *)
Definition runOk (p : ascii -> bool) (q : Regex.quant) (run : string) : Prop :=
  allb p run = true /\
  match q with
  | Regex.Once => String.length run = 1
  | Regex.Optional => String.length run <= 1
  | Regex.Many1 => run <> EmptyString
  | Regex.Many0 | Regex.Lazy0 => True
  end.

(** The text [consumed], followed in the input by [rest], is an instance
    of the pattern, with the captures [caps] for its groups. *)
Fixpoint Matches (pat : Regex.pattern) (consumed rest : string) (caps : list string)
  : Prop :=
  match pat with
  | [] => consumed = EmptyString /\ caps = []
  | Regex.Cls p q :: pat' =>
      exists run tail,
        consumed = run +:+ tail /\ runOk p q run /\ Matches pat' tail rest caps
  | Regex.Grp p q :: pat' =>
      exists run tail caps',
        consumed = run +:+ tail /\ runOk p q run /\ caps = run :: caps' /\
        Matches pat' tail rest caps'
  | Regex.Eos :: pat' =>
      consumed = EmptyString /\ rest = EmptyString /\ Matches pat' consumed rest caps
  end.

(** The styles of the last record with the given name. *)
Definition lastInline (inlineThemes : list CssThemeData) (theme : string)
  : option BaseStyles :=
  option_map styles
    (find (fun t => String.eqb (name t) theme) (rev inlineThemes)).

(** The value of the last entry with the given key. *)
Definition lastEntry {V : Type} (o : list (string * V)) (k : string) : option V :=
  option_map snd (find (fun kv => String.eqb (fst kv) k) (rev o)).

(** The value the last of the objects that has the key gives it. *)
Fixpoint lastBase (bases : list BaseStyles) (k : string) : option StyleValue :=
  match bases with
  | [] => None
  | base :: bases' =>
      match lastBase bases' k with
      | Some v => Some v
      | None => lastEntry base k
      end
  end.

(** The groups of a pattern, in order: the class and the quantifier each
    one wraps. *)
Fixpoint groupsOf (pat : Regex.pattern) : list ((ascii -> bool) * Regex.quant) :=
  match pat with
  | [] => []
  | Regex.Grp p q :: pat' => (p, q) :: groupsOf pat'
  | _ :: pat' => groupsOf pat'
  end.

(** A key the inline parser may store: the colour scheme or a custom
    property. *)
Definition storable (key : string) : Prop :=
  key = "color-scheme" \/ Js.startsWith key "--" = true.

(** A stylesheet that defines the inline theme [brand] twice. *)
Definition twiceCss : string :=
  "@plugin 'daisyui/theme' {" +:+ Js.nl +:+
  "  name: brand;" +:+ Js.nl +:+
  "  --color-primary: #111111;" +:+ Js.nl +:+
  "}" +:+ Js.nl +:+
  "@plugin 'daisyui/theme' {" +:+ Js.nl +:+
  "  name: brand;" +:+ Js.nl +:+
  "  --color-primary: #222222;" +:+ Js.nl +:+
  "}" +:+ Js.nl.

(** ** Definitions for the object model *)

(** The indices of the list do not decrease. *)
Fixpoint ascending {A : Type} (l : list (N * A)) : Prop :=
  match l with
  | [] => True
  | (n, _) :: l' =>
      match l' with
      | [] => True
      | (m, _) :: _ => (n <= m)%N
      end /\ ascending l'
  end.

(** The assignments of [convertStyles] over a list of raw entries, into a
    given object. *)
Definition convertInto {host : Host} (raw : BaseStyles) (converted : Obj.object StyleValue)
  : Obj.object StyleValue :=
  fold_left
    (fun converted kv =>
       Obj.assign prototypeOfValue converted
         (cleanKey (fst kv)) (convertValue (snd kv)))
    raw converted.

(** The same assignments when each of them defines an own property. *)
Definition defineAll {host : Host} (raw acc : BaseStyles) : BaseStyles :=
  fold_left
    (fun converted kv => Obj.set converted (cleanKey (fst kv)) (convertValue (snd kv)))
    raw acc.

(** The raw key cleans to a name other than [__proto__]. *)
Definition cleansOrdinary (kv : string * StyleValue) : Prop :=
  cleanKey (fst kv) <> "__proto__".

(** The body of an inline block that names a theme and declares one
    custom property, whose key cleans to [__proto__]. *)
Definition protoBlock : string :=
  Js.nl +:+ "  name: t;" +:+ Js.nl +:+ "  --__proto__: x;" +:+ Js.nl.

(** A stylesheet whose only inline block has that body. *)
Definition protoBlockCss : string :=
  "@plugin 'daisyui/theme' {" +:+ protoBlock +:+ "}" +:+ Js.nl.

(** A stylesheet with an inline theme named [__proto__]. *)
Definition protoCss : string :=
  "@plugin 'daisyui/theme' {" +:+ Js.nl +:+
  "  name: __proto__;" +:+ Js.nl +:+
  "  --color-primary: #123456;" +:+ Js.nl +:+
  "}" +:+ Js.nl.

(** * Properties *)

(** *** Facts about the string primitives *)

Lemma prefix_app (p s : string) : String.prefix p (p +:+ s) = true.
Proof. induction p as [|c p IH]; simpl; [by destruct s|]. by destruct (ascii_dec c c). Qed.

Lemma prefix_split (p s : string) :
  String.prefix p s = true -> s = p +:+ Js.drop (String.length p) s.
Proof.
  revert s; induction p as [|c p IH]; intros [|d s] H; simpl in *; try done.
  destruct (ascii_dec c d) as [->|]; [|done].
  change (String d s = String d (p +:+ Js.drop (String.length p) s)).
  f_equal. by apply IH.
Qed.

Lemma replace_prefix (s p : string) :
  String.prefix p s = true -> Js.replace s p "" = Js.drop (String.length p) s.
Proof. intros H. destruct s; simpl in *; by rewrite H. Qed.

(** [cleanKey] removes exactly one leading prefix. *)
Lemma cleanKey_cases (k : string) :
  (Js.startsWith k "--color-" = true /\ k = "--color-" +:+ cleanKey k) \/
  (Js.startsWith k "--color-" = false /\ Js.startsWith k "--" = true /\
   k = "--" +:+ cleanKey k) \/
  (Js.startsWith k "--" = false /\ cleanKey k = k).
Proof.
  unfold cleanKey, Js.startsWith.
  destruct (String.prefix "--color-" k) eqn:E1.
  - left. split; [done|]. rewrite replace_prefix by done. by apply prefix_split in E1.
  - right. destruct (String.prefix "--" k) eqn:E2.
    + left. do 2 (split; [done|]). rewrite replace_prefix by done.
      by apply prefix_split in E2.
    + by right.
Qed.

Lemma app_cons (c : ascii) (p s : string) : String c p +:+ s = String c (p +:+ s).
Proof. reflexivity. Qed.

Lemma prefix_app_both (p q s : string) :
  String.prefix (p +:+ q) (p +:+ s) = String.prefix q s.
Proof.
  induction p as [|c p IH]; [done|].
  rewrite !app_cons. simpl. by destruct (ascii_dec c c).
Qed.

Lemma string_length_app (p s : string) :
  String.length (p +:+ s) = String.length p + String.length s.
Proof. induction p as [|c p IH]; [done|]. rewrite app_cons. simpl. by rewrite IH. Qed.

Lemma prefix_weaken (p q s : string) :
  String.prefix (p +:+ q) s = true -> String.prefix p s = true.
Proof.
  revert s; induction p as [|c p IH]; intros [|d s]; try done.
  rewrite app_cons. simpl. destruct (ascii_dec c d); [apply IH|done].
Qed.

(** The cleaned key still starts with the generic prefix exactly when the
    raw key carried a second prefix right behind the stripped one. *)
Lemma cleanKey_keeps_prefix (k : string) :
  Js.startsWith (cleanKey k) "--" =
  if Js.startsWith k "--color-" then Js.startsWith k "--color---"
  else Js.startsWith k "----".
Proof.
  destruct (cleanKey_cases k) as [[E1 Hk]|[(E1 & E2 & Hk)|[E2 Hk]]].
  - rewrite E1. unfold Js.startsWith.
    by rewrite <- (prefix_app_both "--color-" "--" (cleanKey k)), <- Hk.
  - rewrite E1. unfold Js.startsWith.
    by rewrite <- (prefix_app_both "--" "--" (cleanKey k)), <- Hk.
  - rewrite Hk, E2.
    destruct (Js.startsWith k "--color-") eqn:E1.
    + apply (prefix_weaken "--" "color-") in E1. unfold Js.startsWith in E2. congruence.
    + destruct (Js.startsWith k "----") eqn:E4; [|done].
      apply (prefix_weaken "--" "--") in E4. unfold Js.startsWith in E2. congruence.
Qed.

Lemma cleanKey_shorter (k : string) :
  Js.startsWith k "--" = true -> String.length (cleanKey k) < String.length k.
Proof.
  intros H. destruct (cleanKey_cases k) as [[_ Hk]|[(_ & _ & Hk)|[E2 _]]].
  - rewrite Hk at 2. rewrite string_length_app. simpl. lia.
  - rewrite Hk at 2. rewrite string_length_app. simpl. lia.
  - congruence.
Qed.

Lemma cleanKey_fixed (k : string) :
  Js.startsWith k "--" = false -> cleanKey k = k.
Proof.
  intros H. destruct (cleanKey_cases k) as [[E1 _]|[(_ & E2 & _)|[_ Hk]]];
    [|congruence|done].
  apply (prefix_weaken "--" "color-") in E1. unfold Js.startsWith in H. congruence.
Qed.

(** ** StyleKeyCleaner *)

(** C7, amended.  Cleaning is idempotent exactly on the keys whose cleaned
    form no longer starts with the generic prefix: [clean (clean k)] equals
    [clean k] if and only if [clean k] does not start with two dashes.
    Only one prefix is removed per call, so a key that carries a second
    prefix behind the first is cleaned further by a second call. *)
Theorem cleanKey_idempotent_iff (k : string) :
  cleanKey (cleanKey k) = cleanKey k <-> Js.startsWith (cleanKey k) "--" = false.
Proof.
  split.
  - intros Heq. destruct (Js.startsWith (cleanKey k) "--") eqn:E; [|done].
    apply cleanKey_shorter in E. rewrite Heq in E. lia.
  - apply cleanKey_fixed.
Qed.

(** C7 as stated fails: the key of four dashes followed by a letter is
    cleaned to two dashes and a letter, and a second cleaning removes
    those as well. *)
Lemma cleanKey_not_idempotent :
  ~ (forall k : string, cleanKey (cleanKey k) = cleanKey k).
Proof. intros H. specialize (H "----a"). vm_compute in H. discriminate. Qed.

(** C8, amended.  Exactly one prefix is stripped per key: the compound
    prefix when the key starts with it, else the generic prefix when the
    key starts with that, else nothing.  For every raw key that does not
    carry a second prefix right behind the stripped one (it starts neither
    with four dashes nor with the compound prefix followed by two dashes),
    the cleaned key starts neither with the generic nor with the compound
    prefix. *)
Theorem cleanKey_prefix_free (k : string) :
  Js.startsWith k "----" = false ->
  Js.startsWith k "--color---" = false ->
  Js.startsWith (cleanKey k) "--" = false /\
  Js.startsWith (cleanKey k) "--color-" = false /\
  ((Js.startsWith k "--color-" = true /\ k = "--color-" +:+ cleanKey k) \/
   (Js.startsWith k "--color-" = false /\ Js.startsWith k "--" = true /\
    k = "--" +:+ cleanKey k) \/
   (Js.startsWith k "--" = false /\ cleanKey k = k)).
Proof.
  intros H4 Hc.
  assert (Js.startsWith (cleanKey k) "--" = false) as Hfree.
  { rewrite cleanKey_keeps_prefix. by destruct (Js.startsWith k "--color-"). }
  split; [done|]. split; [|apply cleanKey_cases].
  destruct (Js.startsWith (cleanKey k) "--color-") eqn:E; [|done].
  apply (prefix_weaken "--" "color-") in E. unfold Js.startsWith in Hfree. congruence.
Qed.

Lemma cleanKey_prefix_free_witness :
  Js.startsWith (cleanKey "--color-primary") "--" = false /\
  cleanKey "--color-primary" = "primary".
Proof.
  split; [|reflexivity].
  apply (cleanKey_prefix_free "--color-primary"); reflexivity.
Defined.

(** C8 as stated fails: a cleaned key can still start with two dashes. *)
Lemma cleanKey_not_prefix_free :
  ~ (forall k : string, Js.startsWith (cleanKey k) "--" = false).
Proof. intros H. specialize (H "----a"). vm_compute in H. discriminate. Qed.

(** ** Objects as entry lists *)

Section ObjFacts.
Context {V : Type}.
Implicit Types (o : list (string * V)) (k : string) (v : V).

Lemma get_set o k v k' :
  Obj.get (Obj.set o k v) k' = if String.eqb k k' then Some v else Obj.get o k'.
Proof.
  induction o as [|[k0 v0] o IH]; simpl.
  - done.
  - destruct (String.eqb_spec k0 k) as [->|Hne]; simpl.
    + by destruct (String.eqb k k').
    + rewrite IH. destruct (String.eqb_spec k0 k') as [->|]; [|done].
      by destruct (String.eqb_spec k k').
Qed.

Lemma set_length o k v :
  length (Obj.set o k v) =
  match Obj.get o k with Some _ => length o | None => S (length o) end.
Proof.
  induction o as [|[k0 v0] o IH]; simpl; [done|].
  destruct (String.eqb k0 k); simpl; [done|].
  rewrite IH. by destruct (Obj.get o k).
Qed.

Lemma set_not_nil o k v : Obj.set o k v <> [].
Proof. destruct o as [|[k0 v0] o]; simpl; [done|]. by destruct (String.eqb k0 k). Qed.
End ObjFacts.

(** ** The order of own properties *)

Section OrderFacts.
Context {A : Type} (key : A -> string).

Lemma insertIndex_perm (n : N) (x : A) (l : list (N * A)) :
  Permutation (map snd (Obj.insertIndex n x l)) (x :: map snd l).
Proof.
  induction l as [|[m y] l IH]; simpl; [done|].
  destruct (n <=? m)%N; simpl; [done|].
  rewrite IH. apply perm_swap.
Qed.

Lemma ownOrder_perm (l : list A) : Permutation (Obj.ownOrder key l) l.
Proof.
  unfold Obj.ownOrder. induction l as [|x l IH]; simpl; [done|].
  destruct (Obj.isIndex (key x)) as [n|]; simpl.
  - rewrite insertIndex_perm. simpl. by apply perm_skip.
  - rewrite <- Permutation_middle. by apply perm_skip.
Qed.

Lemma ownOrder_In (l : list A) (x : A) : In x (Obj.ownOrder key l) <-> In x l.
Proof.
  split; apply Permutation_in; [apply ownOrder_perm|].
  symmetry. apply ownOrder_perm.
Qed.

Lemma ownOrder_length (l : list A) : length (Obj.ownOrder key l) = length l.
Proof. apply Permutation_length, ownOrder_perm. Qed.

Lemma insertIndex_ascending (n : N) (x : A) (l : list (N * A)) :
  ascending l -> ascending (Obj.insertIndex n x l).
Proof.
  induction l as [|[m y] l IH]; simpl; [done|]. intros [Hm Hl].
  destruct (n <=? m)%N eqn:E; simpl.
  - apply N.leb_le in E. done.
  - apply N.leb_gt in E. split; [|by apply IH].
    destruct l as [|[m' y'] l]; simpl; [lia|].
    destruct (n <=? m')%N; [lia|done].
Qed.

Lemma indexed_ascending (l : list A) : ascending (Obj.indexed key l).
Proof.
  induction l as [|x l IH]; simpl; [done|].
  destruct (Obj.isIndex (key x)); [by apply insertIndex_ascending|done].
Qed.

Lemma insertIndex_keyed (n : N) (x : A) (l : list (N * A)) :
  Obj.isIndex (key x) = Some n ->
  List.Forall (fun nx => Obj.isIndex (key (snd nx)) = Some (fst nx)) l ->
  List.Forall (fun nx => Obj.isIndex (key (snd nx)) = Some (fst nx))
    (Obj.insertIndex n x l).
Proof.
  intros Hx. induction 1 as [|[m y] l Hy Hl IH]; simpl; [by repeat constructor|].
  destruct (n <=? m)%N; repeat constructor; done.
Qed.

Lemma indexed_keyed (l : list A) :
  List.Forall (fun nx => Obj.isIndex (key (snd nx)) = Some (fst nx)) (Obj.indexed key l).
Proof.
  induction l as [|x l IH]; simpl; [constructor|].
  destruct (Obj.isIndex (key x)) eqn:E; [by apply insertIndex_keyed|done].
Qed.

Lemma indexed_sorted (L : list (N * A)) :
  ascending L ->
  List.Forall (fun nx => Obj.isIndex (key (snd nx)) = Some (fst nx)) L ->
  Obj.indexed key (map snd L) = L.
Proof.
  induction L as [|[n x] L IH]; [done|]. intros [Hn HL] HK.
  apply Forall_cons_iff in HK as [Hx HK]. simpl in *.
  rewrite Hx, (IH HL HK). destruct L as [|[m y] L]; [done|].
  simpl. apply N.leb_le in Hn. by rewrite Hn.
Qed.

Lemma indexed_app_named (l r : list A) :
  List.Forall (fun x => Obj.isIndex (key x) = None) r ->
  Obj.indexed key (l ++ r) = Obj.indexed key l.
Proof.
  intros Hr. unfold Obj.indexed. rewrite fold_right_app. f_equal.
  induction Hr as [|x r Hx _ IH]; [done|]. simpl. by rewrite Hx.
Qed.

Lemma named_spec (l : list A) :
  List.Forall (fun x => Obj.isIndex (key x) = None) (Obj.named key l).
Proof.
  apply List.Forall_forall. intros x [_ Hx]%filter_In.
  by destruct (Obj.isIndex (key x)).
Qed.

Lemma named_id (l : list A) :
  List.Forall (fun x => Obj.isIndex (key x) = None) l -> Obj.named key l = l.
Proof.
  induction 1 as [|x l Hx _ IH]; [done|]. simpl. by rewrite Hx, IH.
Qed.

Lemma named_indexed (L : list (N * A)) :
  List.Forall (fun nx => Obj.isIndex (key (snd nx)) = Some (fst nx)) L ->
  Obj.named key (map snd L) = [].
Proof.
  induction 1 as [|[n x] L Hx _ IH]; [done|]. simpl in *. by rewrite Hx.
Qed.

Lemma indexed_none (l : list A) :
  List.Forall (fun x => Obj.isIndex (key x) = None) l -> Obj.indexed key l = [].
Proof. induction 1 as [|x l Hx _ IH]; [done|]. simpl. by rewrite Hx. Qed.

Lemma ownOrder_named (l : list A) :
  List.Forall (fun x => Obj.isIndex (key x) = None) l -> Obj.ownOrder key l = l.
Proof. intros H. unfold Obj.ownOrder. by rewrite indexed_none, named_id. Qed.

Lemma named_app (l r : list A) :
  Obj.named key (l ++ r) = Obj.named key l ++ Obj.named key r.
Proof. apply List.filter_app. Qed.

(** Putting a list in own-property order twice changes nothing more. *)
Lemma ownOrder_idem (l : list A) :
  Obj.ownOrder key (Obj.ownOrder key l) = Obj.ownOrder key l.
Proof.
  unfold Obj.ownOrder.
  rewrite indexed_app_named by apply named_spec.
  rewrite indexed_sorted by (apply indexed_ascending || apply indexed_keyed).
  rewrite named_app, named_indexed by apply indexed_keyed.
  by rewrite (named_id _ (named_spec l)).
Qed.

End OrderFacts.

Lemma insertIndex_map {A : Type} (key : A -> string) (n : N) (x : A) (L : list (N * A)) :
  map (fun nx => (fst nx, key (snd nx))) (Obj.insertIndex n x L)
  = Obj.insertIndex n (key x) (map (fun nx => (fst nx, key (snd nx))) L).
Proof.
  induction L as [|[m y] L IH]; simpl; [done|].
  destruct (n <=? m)%N; simpl; [done|]. by rewrite IH.
Qed.

(** The keys of a list in own-property order are the own-property order of
    its keys. *)
Lemma ownOrder_map {A : Type} (key : A -> string) (l : list A) :
  map key (Obj.ownOrder key l) = Obj.ownOrder (fun k => k) (map key l).
Proof.
  unfold Obj.ownOrder. rewrite map_app. f_equal.
  - assert (map (fun nx => (fst nx, key (snd nx))) (Obj.indexed key l)
            = Obj.indexed (fun k => k) (map key l)) as H.
    { induction l as [|x l IH]; simpl; [done|].
      destruct (Obj.isIndex (key x)); [|done]. by rewrite insertIndex_map, IH. }
    rewrite <- H, !map_map. done.
  - induction l as [|x l IH]; simpl; [done|].
    destruct (Obj.isIndex (key x)); simpl; by rewrite IH.
Qed.

Lemma keys_names {V : Type} (o : list (string * V)) :
  Obj.keys o = Obj.ownOrder (fun k => k) (Obj.names o).
Proof. apply ownOrder_map. Qed.

Lemma keys_perm {V : Type} (o : list (string * V)) :
  Permutation (Obj.keys o) (Obj.names o).
Proof. rewrite keys_names. apply ownOrder_perm. Qed.

Lemma keys_length {V : Type} (o : list (string * V)) : length (Obj.keys o) = length o.
Proof. unfold Obj.keys, Obj.entries. by rewrite length_map, ownOrder_length. Qed.

Lemma keys_NoDup {V : Type} (o : list (string * V)) :
  List.NoDup (Obj.names o) -> List.NoDup (Obj.keys o).
Proof. apply Permutation_NoDup. symmetry. apply keys_perm. Qed.

Lemma keys_In {V : Type} (o : list (string * V)) (k : string) :
  In k (Obj.keys o) <-> In k (Obj.names o).
Proof. rewrite keys_names. apply ownOrder_In. Qed.

(** ** Assignment *)

Section AssignFacts.
Context {V : Type} (asPrototype : V -> option bool).
Implicit Types (o : Obj.object V) (k : string) (v : V).

Lemma assign_ordinary o k v :
  k <> "__proto__" ->
  Obj.assign asPrototype o k v
  = {| Obj.own := Obj.set (Obj.own o) k v; Obj.chain := Obj.chain o |}.
Proof.
  intros Hk. unfold Obj.assign.
  destruct (String.eqb_spec k "__proto__") as [->|_]; [done|]. done.
Qed.

(** What an assignment does to the own entries: nothing, or it defines
    the property. *)
Lemma assign_own o k v :
  (k = "__proto__" /\ Obj.own (Obj.assign asPrototype o k v) = Obj.own o) \/
  Obj.own (Obj.assign asPrototype o k v) = Obj.set (Obj.own o) k v.
Proof.
  unfold Obj.assign. destruct (String.eqb_spec k "__proto__") as [->|_]; [|by right].
  destruct (_ && _ && _); [|by right].
  left. split; [done|]. by destruct (asPrototype v).
Qed.

Lemma get_assign o k v k' :
  k' <> "__proto__" ->
  Obj.get (Obj.own (Obj.assign asPrototype o k v)) k'
  = if String.eqb k k' then Some v else Obj.get (Obj.own o) k'.
Proof.
  intros Hk'. destruct (assign_own o k v) as [[-> ->]| ->].
  - by destruct (String.eqb_spec "__proto__" k') as [<-|_].
  - apply get_set.
Qed.

Lemma assign_length o k v :
  length (Obj.own (Obj.assign asPrototype o k v)) <= S (length (Obj.own o)).
Proof.
  destruct (assign_own o k v) as [[_ ->]| ->]; [lia|].
  rewrite set_length. destruct (Obj.get _ _); lia.
Qed.

End AssignFacts.

(** ** convertStyles *)

Section ConvertStyles.
Context {host : Host}.

Lemma convertStyles_convertInto (styles : BaseStyles) :
  convertStyles styles
  = Obj.own (convertInto (Obj.entries styles) {| Obj.own := []; Obj.chain := false |}).
Proof. reflexivity. Qed.

Lemma convertInto_snoc (raw : BaseStyles) (kv : string * StyleValue)
    (o : Obj.object StyleValue) :
  convertInto (raw ++ [kv]) o
  = Obj.assign prototypeOfValue (convertInto raw o)
      (cleanKey (fst kv)) (convertValue (snd kv)).
Proof. unfold convertInto. by rewrite fold_left_app. Qed.

Lemma defineAll_snoc (raw acc : BaseStyles) (key : string) (value : StyleValue) :
  defineAll (raw ++ [(key, value)]) acc
  = Obj.set (defineAll raw acc) (cleanKey key) (convertValue value).
Proof. unfold defineAll. by rewrite fold_left_app. Qed.

(** When no raw key cleans to [__proto__], every assignment defines an own
    property. *)
Lemma convertInto_ordinary (raw : BaseStyles) (o : Obj.object StyleValue) :
  List.Forall cleansOrdinary raw ->
  convertInto raw o
  = {| Obj.own := defineAll raw (Obj.own o); Obj.chain := Obj.chain o |}.
Proof.
  intros H. revert o; induction H as [|[k v] raw Hk _ IH]; intros o.
  - by destruct o.
  - unfold convertInto, defineAll in *. simpl.
    rewrite (assign_ordinary _ _ _ _ Hk). by rewrite IH.
Qed.

Lemma convertStyles_ordinary (styles : BaseStyles) :
  List.Forall cleansOrdinary styles ->
  convertStyles styles = defineAll (Obj.entries styles) [].
Proof.
  intros H. rewrite convertStyles_convertInto, convertInto_ordinary; [done|].
  apply List.Forall_forall. intros kv Hkv%ownOrder_In.
  rewrite List.Forall_forall in H. by apply H.
Qed.

Lemma convertInto_length (raw : BaseStyles) (o : Obj.object StyleValue) :
  length (Obj.own (convertInto raw o)) <= length raw + length (Obj.own o).
Proof.
  induction raw as [|kv raw IH] using rev_ind; [simpl; lia|].
  rewrite convertInto_snoc, List.length_app. simpl.
  pose proof (assign_length prototypeOfValue (convertInto raw o)
                (cleanKey (fst kv)) (convertValue (snd kv))). lia.
Qed.

Lemma convertStyles_length_le (styles : BaseStyles) :
  length (convertStyles styles) <= length styles.
Proof.
  rewrite convertStyles_convertInto.
  pose proof (convertInto_length (Obj.entries styles)
                {| Obj.own := []; Obj.chain := false |}) as H.
  unfold Obj.entries in *. rewrite ownOrder_length in H. simpl in H. lia.
Qed.

Lemma defineAll_nil_iff (raw : BaseStyles) : defineAll raw [] = [] <-> raw = [].
Proof.
  split; [|by intros ->].
  destruct raw as [|kv raw _] using rev_ind; [done|].
  destruct kv as [k v]. rewrite defineAll_snoc. intros H.
  by apply set_not_nil in H.
Qed.

(** Apart from the name [__proto__], conversion never loses a map
    entirely. *)
Lemma convertStyles_nil_iff (styles : BaseStyles) :
  List.Forall cleansOrdinary styles ->
  convertStyles styles = [] <-> styles = [].
Proof.
  intros H. rewrite convertStyles_ordinary, defineAll_nil_iff by done.
  split; [|by intros ->]. intros E.
  apply length_zero_iff_nil. rewrite <- (ownOrder_length fst styles).
  unfold Obj.entries in E. by rewrite E.
Qed.

(** Under a name other than [__proto__] the converted object holds the
    converted value of the last raw entry, in the order of the loop, that
    cleans to this name. *)
Lemma convertInto_get (raw : BaseStyles) (o : Obj.object StyleValue) (k : string) :
  k <> "__proto__" ->
  Obj.get (Obj.own (convertInto raw o)) k =
  match find (fun kv => String.eqb (cleanKey (fst kv)) k) (rev raw) with
  | Some kv => Some (convertValue (snd kv))
  | None => Obj.get (Obj.own o) k
  end.
Proof.
  intros Hk. induction raw as [|[k0 v0] raw IH] using rev_ind; [done|].
  rewrite convertInto_snoc, get_assign, rev_unit by done. simpl.
  by destruct (String.eqb (cleanKey k0) k).
Qed.

(** C10.  The code loses a collision on the name [__proto__]: the two raw
    keys below are distinct and clean to the same key, yet the later value
    does not replace the earlier one in the output, which holds no entry
    for either: the assignment [converted[cleanKey] = ...] reaches the
    setter of [Object.prototype] and creates no property. *)
Theorem convertStyles_proto_collision :
  "--__proto__" <> "--color-__proto__" /\
  cleanKey "--__proto__" = "__proto__" /\
  cleanKey "--color-__proto__" = "__proto__" /\
  convertStyles [("--__proto__", VStr "red"); ("--color-__proto__", VStr "blue")] = [] /\
  Obj.get
    (convertStyles [("--__proto__", VStr "red"); ("--color-__proto__", VStr "blue")])
    "__proto__" = None.
Proof. repeat split; by vm_compute. Qed.

(** ** ColorNormalizer *)

(** C6.  Provided culori's [formatHex] only ever returns strings that
    start with [#], a string value containing one of the four functional
    notations is replaced by the string [formatHex] returns for it, and
    is kept as it is when [formatHex] throws or returns [undefined];
    every other string and every value that is not a string is kept as it
    is.  [convertValue] is total: it neither throws nor returns null. *)
Theorem convertValue_fail_soft
    (culori : forall c hex, formatHex c = FormatString hex ->
                            Js.startsWith hex "#" = true)
    (value : StyleValue) :
  match value with
  | VStr s =>
      if Js.includes s "oklch(" || Js.includes s "rgb(" ||
         Js.includes s "hsl(" || Js.includes s "lch("
      then
        match formatHex s with
        | FormatString hex =>
            convertValue value = VStr hex /\ Js.startsWith hex "#" = true
        | FormatUndefined | FormatThrows => convertValue value = value
        end
      else convertValue value = value
  | VNum _ | VRec _ => convertValue value = value
  end.
Proof.
  destruct value as [s| |]; simpl; [|done..].
  unfold isColor, convertToHex.
  destruct (_ || _); [|done].
  destruct (formatHex s) as [| |hex] eqn:E; [done..|].
  apply culori in E. split; [|done]. by destruct hex.
Qed.

End ConvertStyles.

(** The sample [formatHex] keeps culori's promise, and turns the OKLCH red
    into its hex form. *)
Lemma convertValue_fail_soft_witness :
  convertValue (host := Sample.host) (VStr Sample.red) = VStr "#ff0000" /\
  Js.startsWith "#ff0000" "#" = true.
Proof.
  assert (forall c hex, formatHex (Host := Sample.host) c = FormatString hex ->
                        Js.startsWith hex "#" = true) as culori.
  { intros c hex. cbn [formatHex Sample.host]. unfold Sample.culori.
    destruct (String.eqb c Sample.red); [by intros [= <-]|].
    by destruct (Js.includes c "var("). }
  exact (convertValue_fail_soft (host := Sample.host) culori (VStr Sample.red)).
Defined.

(** ** Sets in insertion order *)

Lemma Set_has_In (s : list string) (x : string) : Js.Set_has s x = true <-> In x s.
Proof.
  unfold Js.Set_has. rewrite existsb_exists. split.
  - intros (y & Hy & E). by apply String.eqb_eq in E as ->.
  - intros H. exists x. split; [done|apply String.eqb_refl].
Qed.

Lemma Set_has_app (s t : list string) (x : string) :
  Js.Set_has (s ++ t) x = Js.Set_has s x || Js.Set_has t x.
Proof. apply existsb_app. Qed.

Lemma filter_firstOccurrences (p : string -> bool) (xs : list string) :
  List.filter p (firstOccurrences xs) = firstOccurrences (List.filter p xs).
Proof.
  induction xs as [|x xs IH]; [done|]. simpl.
  destruct (p x) eqn:E; simpl.
  - rewrite <- IH. f_equal. clear. induction (firstOccurrences xs) as [|y l IH]; [done|].
    simpl. destruct (negb (String.eqb x y)) eqn:E1, (p y) eqn:E2; simpl;
      rewrite ?E1, ?E2, IH; done.
  - rewrite <- IH. clear IH. induction (firstOccurrences xs) as [|y l IH]; [done|].
    simpl. destruct (String.eqb_spec x y) as [<-|Hne]; simpl.
    + by rewrite E.
    + by rewrite IH.
Qed.

(** The insertions of [new Set(xs)] into a set [acc] add, in order, the
    first occurrences of the names that [acc] does not hold yet. *)
Lemma Set_add_all (xs acc : list string) :
  fold_left Js.Set_add xs acc =
  acc ++ firstOccurrences (List.filter (fun x => negb (Js.Set_has acc x)) xs).
Proof.
  revert acc; induction xs as [|x xs IH]; intros acc; simpl.
  - by rewrite app_nil_r.
  - unfold Js.Set_add at 2. destruct (Js.Set_has acc x) eqn:E; simpl; [apply IH|].
    rewrite IH, <- app_assoc. simpl. do 2 f_equal.
    rewrite filter_firstOccurrences. f_equal.
    clear IH. induction xs as [|y xs IH]; [done|]. simpl.
    rewrite Set_has_app. simpl. rewrite orb_false_r, (String.eqb_sym y x).
    destruct (Js.Set_has acc y), (String.eqb x y) eqn:Exy; simpl;
      rewrite ?Exy; simpl; by rewrite ?IH.
Qed.

Lemma Set_of_firstOccurrences (xs : list string) : Js.Set_of xs = firstOccurrences xs.
Proof.
  unfold Js.Set_of. rewrite Set_add_all. simpl. f_equal.
  induction xs as [|x xs IH]; [done|]. simpl. by rewrite IH.
Qed.

Lemma firstOccurrences_In (xs : list string) (x : string) :
  In x (firstOccurrences xs) <-> In x xs.
Proof.
  induction xs as [|y xs IH]; [done|]. simpl. rewrite filter_In, IH.
  destruct (String.eqb_spec y x) as [->|Hne]; simpl; [tauto|].
  split; [tauto|]. intros [?|?]; [by left|by right].
Qed.

Lemma firstOccurrences_NoDup (xs : list string) : List.NoDup (firstOccurrences xs).
Proof.
  induction xs as [|x xs IH]; simpl; constructor.
  - rewrite filter_In. intros [_ H]. by rewrite String.eqb_refl in H.
  - by apply List.NoDup_filter.
Qed.

Lemma firstOccurrences_id (xs : list string) :
  List.NoDup xs -> firstOccurrences xs = xs.
Proof.
  induction 1 as [|x xs Hx _ IH]; [done|]. simpl. rewrite IH. f_equal.
  clear IH. induction xs as [|y xs IH]; [done|]. simpl.
  destruct (String.eqb_spec x y) as [->|Hne]; simpl.
  - exfalso. apply Hx. by left.
  - f_equal. apply IH. intros H. apply Hx. by right.
Qed.

Lemma Set_of_app_l (xs ys : list string) :
  Js.Set_of (Js.Set_of xs ++ ys) = Js.Set_of (xs ++ ys).
Proof.
  unfold Js.Set_of. rewrite !fold_left_app. f_equal.
  change (Js.Set_of (Js.Set_of xs) = Js.Set_of xs).
  rewrite !Set_of_firstOccurrences. apply firstOccurrences_id, firstOccurrences_NoDup.
Qed.

(** ** ReferencedThemeNameParser *)

Lemma greedy_spaces {R : Type} (f : string -> option R) (taken rest : string) :
  (forall c r, Js.is_space c = true -> f (String c r) = None) ->
  Regex.greedy Js.is_space (fun _ r => f r) taken rest = f (Js.trimStart rest).
Proof.
  intros Hf. revert taken; induction rest as [|c rest IH]; intros taken; simpl; [done|].
  destruct (Js.is_space c) eqn:E; [|done].
  rewrite IH. destruct (f (Js.trimStart rest)); [done|]. by apply Hf.
Qed.

Lemma exec_at_chr (c : ascii) (pat : Regex.pattern) (caps : list string) (s : string) :
  Regex.exec_at (Regex.chr c :: pat) caps s =
  match s with
  | String a rest => if Ascii.eqb c a then Regex.exec_at pat caps rest else None
  | EmptyString => None
  end.
Proof. by destruct s. Qed.

Lemma prefix_cons (c a : ascii) (p s : string) :
  String.prefix (String c p) (String a s) =
  if Ascii.eqb c a then String.prefix p s else false.
Proof.
  change (String.prefix (String c p) (String a s))
    with (if ascii_dec c a then String.prefix p s else false).
  destruct (Ascii.eqb_spec c a), (ascii_dec c a); done.
Qed.

Lemma twoDashes_startsWith (rest : string) :
  match twoDashes rest with Some _ => true | None => false end
  = Js.startsWith rest "--".
Proof.
  unfold twoDashes, Js.startsWith.
  destruct rest as [|a rest]; [reflexivity|].
  rewrite exec_at_chr, prefix_cons. destruct (Ascii.eqb "-" a); [|done].
  destruct rest as [|b rest]; [reflexivity|].
  rewrite exec_at_chr, prefix_cons. destruct (Ascii.eqb "-" b); [|done].
  by destruct rest.
Qed.

Lemma twoDashes_space (c : ascii) (r : string) :
  Js.is_space c = true -> twoDashes (String c r) = None.
Proof.
  intros H. unfold twoDashes. rewrite exec_at_chr.
  destruct (Ascii.eqb_spec "-" c) as [<-|]; [|done]. by vm_compute in H.
Qed.

Lemma flagRegex_startsFlag (s : string) :
  match Regex.exec_at flagRegex [] s with Some _ => true | None => false end
  = startsFlag s.
Proof.
  destruct s as [|c s]; [done|].
  change (Regex.exec_at flagRegex [] (String c s))
    with (if Js.is_space c
          then Regex.greedy Js.is_space (fun _ r => twoDashes r) (String c EmptyString) s
          else None).
  simpl. destruct (Js.is_space c); [|done].
  rewrite greedy_spaces by apply twoDashes_space. apply twoDashes_startsWith.
Qed.

Lemma splitHead_truncateAtFlag (s : string) :
  Regex.splitHead flagRegex s = truncateAtFlag s.
Proof.
  induction s as [|c s IH].
  - by vm_compute.
  - change (Regex.splitHead flagRegex (String c s))
      with (match Regex.exec_at flagRegex [] (String c s) with
            | Some _ => EmptyString
            | None => String c (Regex.splitHead flagRegex s)
            end).
    change (truncateAtFlag (String c s))
      with (if startsFlag (String c s) then EmptyString
            else String c (truncateAtFlag s)).
    rewrite <- flagRegex_startsFlag, IH.
    by destruct (Regex.exec_at flagRegex [] (String c s)).
Qed.

(** *** Trimming: what is cut at a flag marker needs no second trim *)

Lemma trimStart_noLead (s : string) : noLead (Js.trimStart s).
Proof.
  induction s as [|c s IH]; simpl; [done|].
  by destruct (Js.is_space c) eqn:E.
Qed.

Lemma trimStart_id (s : string) : noLead s -> Js.trimStart s = s.
Proof. destruct s as [|c s]; simpl; [done|]. by intros ->. Qed.

Lemma trimEnd_cons (c : ascii) (s : string) :
  Js.trimEnd (String c s) =
  match Js.trimEnd s with
  | EmptyString => if Js.is_space c then EmptyString else String c EmptyString
  | r => String c r
  end.
Proof. reflexivity. Qed.

Lemma trimEnd_idem (s : string) : Js.trimEnd (Js.trimEnd s) = Js.trimEnd s.
Proof.
  induction s as [|c s IH]; [done|]. rewrite trimEnd_cons.
  destruct (Js.trimEnd s) as [|d r] eqn:E.
  - destruct (Js.is_space c) eqn:Ec; [done|]. rewrite trimEnd_cons. simpl. by rewrite Ec.
  - rewrite trimEnd_cons, IH. done.
Qed.

Lemma trimEnd_noLead (s : string) : noLead s -> noLead (Js.trimEnd s).
Proof.
  destruct s as [|c s]; [done|]. simpl. intros Hc.
  destruct (Js.trimEnd s); [by rewrite Hc|done].
Qed.

Lemma trimEnd_tail (c : ascii) (s : string) :
  Js.trimEnd (String c s) = String c s -> Js.trimEnd s = s.
Proof.
  rewrite trimEnd_cons. destruct (Js.trimEnd s) as [|d r] eqn:E.
  - destruct (Js.is_space c); [done|]. by intros [= <-].
  - by intros [= <-].
Qed.

Lemma startsFlag_cons (c : ascii) (s : string) :
  Js.is_space c = true -> startsFlag s = true -> startsFlag (String c s) = true.
Proof.
  intros Hc. destruct s as [|d s]; [done|]. simpl. rewrite Hc.
  destruct (Js.is_space d); [|done]. simpl. by intros ->.
Qed.

Lemma truncateAtFlag_cons (c : ascii) (s : string) :
  truncateAtFlag (String c s) =
  if startsFlag (String c s) then EmptyString else String c (truncateAtFlag s).
Proof. reflexivity. Qed.

Lemma truncateAtFlag_nil (s : string) :
  truncateAtFlag s = EmptyString -> s = EmptyString \/ startsFlag s = true.
Proof.
  destruct s as [|c s]; [by left|]. rewrite truncateAtFlag_cons.
  destruct (startsFlag (String c s)); [by right|done].
Qed.

Lemma truncateAtFlag_trimEnd (s : string) :
  Js.trimEnd s = s -> Js.trimEnd (truncateAtFlag s) = truncateAtFlag s.
Proof.
  induction s as [|c s IH]; [done|]. intros Hs.
  pose proof (trimEnd_tail _ _ Hs) as Hs'.
  rewrite truncateAtFlag_cons.
  destruct (startsFlag (String c s)) eqn:Ef; [done|].
  rewrite trimEnd_cons, (IH Hs').
  destruct (truncateAtFlag s) as [|d r] eqn:Et; [|done].
  destruct (Js.is_space c) eqn:Ec; [|done]. exfalso.
  destruct (truncateAtFlag_nil _ Et) as [->|Hflag].
  - simpl in Hs. by rewrite Ec in Hs.
  - rewrite (startsFlag_cons _ _ Ec Hflag) in Ef. done.
Qed.

Lemma truncateAtFlag_noLead (s : string) : noLead s -> noLead (truncateAtFlag s).
Proof.
  destruct s as [|c s]; [done|]. rewrite truncateAtFlag_cons.
  by destruct (startsFlag (String c s)).
Qed.

Lemma trim_truncateAtFlag (t : string) :
  Js.trim (truncateAtFlag (Js.trim t)) = truncateAtFlag (Js.trim t).
Proof.
  unfold Js.trim at 1.
  assert (noLead (Js.trim t)) as Hl by apply trimEnd_noLead, trimStart_noLead.
  rewrite trimStart_id by by apply truncateAtFlag_noLead.
  apply truncateAtFlag_trimEnd. apply trimEnd_idem.
Qed.

Lemma themesOfBlock_spec (themesString : string) :
  themesOfBlock themesString = spec_namesOfBlock themesString.
Proof.
  unfold themesOfBlock, spec_namesOfBlock. f_equal. apply map_ext. intros t.
  unfold cleanThemeName. by rewrite splitHead_truncateAtFlag, trim_truncateAtFlag.
Qed.

Lemma fold_left_push {A B : Type} (g : A -> list B) (xs : list A) (acc : list B) :
  fold_left (fun acc x => acc ++ g x) xs acc = acc ++ flat_map g xs.
Proof.
  revert acc; induction xs as [|x xs IH]; intros acc; simpl.
  - by rewrite app_nil_r.
  - by rewrite IH, <- app_assoc.
Qed.

(** C4.  [extractThemeNamesFromCss] returns, for every CSS text, the names
    of all matched reference blocks in match order, each item stripped of
    white space and cut off from its first flag marker, empty items
    dropped, deduplicated keeping first occurrences; the result has no
    duplicate; the flagged example of the specification yields light, dark,
    forest; a repeated name collapses onto its first occurrence; a text
    without a matching block, or with an unterminated one, yields the empty
    list. *)
Theorem extractThemeNamesFromCss_spec :
  (forall cssContent, extractThemeNamesFromCss cssContent = spec_extractNames cssContent) /\
  (forall cssContent, List.NoDup (extractThemeNamesFromCss cssContent)) /\
  extractThemeNamesFromCss
    ("@plugin " +:+ Js.dq +:+ "daisyui" +:+ Js.dq +:+
     " { themes: light --default, dark --prefersdark, forest; };")
  = ["light"; "dark"; "forest"] /\
  extractThemeNamesFromCss
    ("@plugin " +:+ Js.dq +:+ "daisyui" +:+ Js.dq +:+ " { themes: light, dark, light; };")
  = ["light"; "dark"] /\
  extractThemeNamesFromCss "body { color: red; }" = [] /\
  extractThemeNamesFromCss "@plugin 'daisyui' { themes: light, dark" = [] /\
  extractThemeNamesFromCss "" = [].
Proof.
  assert (forall css, extractThemeNamesFromCss css = spec_extractNames css) as Hspec.
  { intros css. unfold extractThemeNamesFromCss, spec_extractNames.
    rewrite Set_of_firstOccurrences, fold_left_push. simpl. f_equal.
    apply flat_map_ext. intros m. apply themesOfBlock_spec. }
  split; [done|]. split.
  { intros css. rewrite Hspec. apply firstOccurrences_NoDup. }
  repeat split; by vm_compute.
Qed.

(** ** InlineThemeParser *)

Lemma nonEmpty_true (t : string) : nonEmpty t = true <-> t <> EmptyString.
Proof. by destruct t. Qed.

Section InlineThemes.
Context {host : Host}.

(** X18.  A matched inline block pushes a record, with the name
    and the converted styles it yielded, if and only if that name is not
    empty and the working style map, as it is before conversion, has an
    entry; otherwise it pushes nothing.  When no stored key cleans to
    [__proto__], the converted map has an entry exactly when the working
    map has one.  The result of [extractInlineThemesFromCss] is what the
    matched blocks push, in match order, and nothing else: no error value
    exists.  A block holding only [name: mytheme;] is discarded, and so is
    a block holding only [--color-base-100: #ffffff;]; a complete block is
    kept. *)
Theorem emitBlock_iff :
  (forall blockContent : string,
      let b := parseBlock blockContent in
      (themeName b <> EmptyString /\ blockStyles b <> [] /\
       emitBlock blockContent =
         [{| name := themeName b; styles := convertStyles (blockStyles b) |}]) \/
      ((themeName b = EmptyString \/ blockStyles b = []) /\
       emitBlock blockContent = [])) /\
  (forall blockContent : string,
      let b := parseBlock blockContent in
      List.Forall cleansOrdinary (blockStyles b) ->
      (convertStyles (blockStyles b) = [] <-> blockStyles b = [])) /\
  (forall cssContent : string,
      extractInlineThemesFromCss cssContent =
      flat_map (fun match_ => emitBlock (Regex.group 1 match_))
        (Regex.execAll inlineRegex 0 cssContent)) /\
  extractInlineThemesFromCss
    ("@plugin " +:+ Js.dq +:+ "daisyui/theme" +:+ Js.dq +:+ " { name: mytheme; }") = [] /\
  extractInlineThemesFromCss
    ("@plugin " +:+ Js.dq +:+ "daisyui/theme" +:+ Js.dq +:+
     " { --color-base-100: #ffffff; }") = [] /\
  extractInlineThemesFromCss (host := Sample.host) Sample.css =
    [{| name := "mediumseagreen";
        styles := [("color-scheme", VStr "light"); ("primary", VStr "#ff0000")] |}].
Proof.
  split.
  { intros blockContent b. unfold emitBlock. fold b. rewrite keys_length.
    destruct (nonEmpty (themeName b)) eqn:En; simpl.
    - apply nonEmpty_true in En.
      destruct (blockStyles b) as [|kv raw] eqn:Es.
      + right. split; [by right|done].
      + left. split; [done|]. split; [done|]. reflexivity.
    - right. split; [|done]. left.
      destruct (themeName b); [done|discriminate]. }
  split; [intros blockContent b; apply convertStyles_nil_iff|].
  split.
  { intros css. unfold extractInlineThemesFromCss. by rewrite fold_left_push. }
  repeat split; by vm_compute.
Qed.

End InlineThemes.

(** C5.  The code emits a record whose converted style map has no entry:
    the block of this stylesheet names its theme and declares one custom
    property, whose key cleans to [__proto__].  The working map holds the
    declaration, so the test before the push passes; the conversion then
    stores nothing for it, because the assignment
    [converted[cleanKey] = ...] reaches the setter of [Object.prototype]. *)
Theorem emitBlock_empty_styles :
  blockStyles (parseBlock protoBlock) = [("--__proto__", VStr "x")] /\
  convertStyles (host := Sample.host) (blockStyles (parseBlock protoBlock)) = [] /\
  emitBlock (host := Sample.host) protoBlock = [{| name := "t"; styles := [] |}] /\
  extractInlineThemesFromCss (host := Sample.host) protoBlockCss
    = [{| name := "t"; styles := [] |}].
Proof. repeat split; by vm_compute. Qed.

(** ** ThemeModuleResolver *)

Section Resolver.
Context {host : Host}.

Lemma tryPaths_skip (tried rest : list string) :
  List.Forall (fun p => usable p = false) tried ->
  tryPaths (tried ++ rest) =
  (map (String.append "file://") tried ++ fst (tryPaths rest), snd (tryPaths rest)).
Proof.
  induction 1 as [|p tried Hp _ IH]; simpl.
  - by destruct (tryPaths rest).
  - unfold usable in Hp. rewrite IH.
    destruct (import ("file://" +:+ p)) as [|[|bases [|]]]; done.
Qed.

Lemma usable_false (p : string) :
  usable p = false <->
  import ("file://" +:+ p) = ImportThrows \/
  import ("file://" +:+ p) = Module_ NotAFunction \/
  exists bases, import ("file://" +:+ p) = Module_ (ThemeFunction bases true).
Proof.
  unfold usable.
  destruct (import ("file://" +:+ p)) as [|[|bases [|]]]; split; try done; eauto.
  - intros [?|[?|[? ?]]]; done.
Qed.

(** C3.  When the candidates that exist on disk are [tried], then
    [themePath], then [later], none of [tried] is usable, and the module
    at [themePath] has a function as default export whose call returns,
    [extractThemeData] imports [tried] and [themePath], in this order and
    nothing behind them, and returns the converted accumulator of that
    call.  When no existing candidate is usable (in particular when none
    exists), every existing candidate is imported and the call fails with
    the error message that names the theme.  A candidate is not usable
    exactly when its import throws, or its default export is no function,
    or the call of that function throws: each of these only moves on to
    the next candidate. *)
Theorem extractThemeData_policy (themeName : string) :
  (forall tried themePath later bases,
      existingPaths themeName = tried ++ themePath :: later ->
      List.Forall (fun p => usable p = false) tried ->
      import ("file://" +:+ themePath) = Module_ (ThemeFunction bases false) ->
      extractThemeData themeName =
        (map (String.append "file://") (tried ++ [themePath]),
         Resolved (convertStyles (addBases bases)))) /\
  (List.Forall (fun p => usable p = false) (existingPaths themeName) ->
   extractThemeData themeName =
     (map (String.append "file://") (existingPaths themeName),
      NotFound ("Could not import theme '" +:+ themeName +:+
                "' from any known path in node_modules"))) /\
  (existingPaths themeName = [] ->
   extractThemeData themeName =
     ([], NotFound ("Could not import theme '" +:+ themeName +:+
                    "' from any known path in node_modules"))) /\
  (forall p, usable p = false <->
      import ("file://" +:+ p) = ImportThrows \/
      import ("file://" +:+ p) = Module_ NotAFunction \/
      exists bases, import ("file://" +:+ p) = Module_ (ThemeFunction bases true)).
Proof.
  split; [|split; [|split]].
  - intros tried themePath later bases Hex Htried Himp.
    unfold extractThemeData. rewrite Hex, tryPaths_skip by done.
    simpl. rewrite Himp. simpl. by rewrite map_app.
  - intros Hall. unfold extractThemeData.
    rewrite <- (app_nil_r (existingPaths themeName)) at 1.
    rewrite tryPaths_skip by done. simpl. by rewrite app_nil_r.
  - intros Hnil. unfold extractThemeData. by rewrite Hnil.
  - apply usable_false.
Qed.

End Resolver.

(** In the sample installation [dark] has a stale module in the first
    layout and a working one in the second: both are imported, the second
    one answers. *)
Lemma extractThemeData_policy_witness :
  extractThemeData (host := Sample.host) "dark" =
    (["file:///home/user/app/node_modules/daisyui/theme/dark/index.js";
      "file:///home/user/app/node_modules/daisyui/dist/theme/dark/index.js"],
     Resolved [("color-scheme", VStr "dark"); ("primary", VStr "rgb(var(--p))");
               ("depth", VNum 0%Z)]) /\
  extractThemeData (host := Sample.host) "ghost" =
    ([], NotFound "Could not import theme 'ghost' from any known path in node_modules").
Proof.
  split.
  - apply (proj1 (extractThemeData_policy (host := Sample.host) "dark")
             ["/home/user/app/node_modules/daisyui/theme/dark/index.js"]
             "/home/user/app/node_modules/daisyui/dist/theme/dark/index.js"
             []
             [Sample.darkBase; [("--depth", VNum 0%Z)]]).
    + by vm_compute.
    + constructor; [by vm_compute|constructor].
    + by vm_compute.
  - apply (proj1 (proj2 (proj2 (extractThemeData_policy (host := Sample.host) "ghost")))).
    by vm_compute.
Defined.

(** ** Candidate construction *)

(** C9, amended.  For every theme name the candidate list, as it is built,
    starts with the four direct locations; right behind them comes the
    second group, which consists of exactly two locations one directory
    level up, the themed-directory layout and the distribution
    themed-directory layout (the first two of the four layouts); the
    locations found through the project's manifest and through the tool's
    own installation follow.  The list that is probed is this list without
    repetitions, first occurrences kept. *)
Theorem allPossiblePaths_order {host : Host} (themeName : string) :
  allPossiblePaths themeName =
    [ join [cwd; "node_modules"; "daisyui"; "theme"; themeName; "index.js"];
      join [cwd; "node_modules"; "daisyui"; "dist"; "theme"; themeName; "index.js"];
      join [cwd; "node_modules"; "daisyui"; "src"; "theming"; "themes";
            themeName +:+ ".js"];
      join [cwd; "node_modules"; "daisyui"; "dist"; "themes"; themeName +:+ ".js"] ] ++
    [ join [cwd; ".."; "node_modules"; "daisyui"; "theme"; themeName; "index.js"];
      join [cwd; ".."; "node_modules"; "daisyui"; "dist"; "theme"; themeName;
            "index.js"] ] ++
    (match cwdDaisyui with
     | Some dir => packagePaths dir themeName
     | None => []
     end ++
     match scriptDaisyui with
     | Some dir => packagePaths dir themeName
     | None => []
     end) /\
  parentPaths themeName = firstn 2 (spec_parentPaths themeName) /\
  uniquePaths themeName = firstOccurrences (allPossiblePaths themeName) /\
  existingPaths themeName = List.filter existsSync (uniquePaths themeName).
Proof.
  repeat split. unfold uniquePaths. apply Set_of_firstOccurrences.
Qed.

(** C9 as stated fails: in the sample installation the four direct
    locations of [light] are not followed by the four layouts of the parent
    directory. *)
Lemma allPossiblePaths_not_four_parents :
  ~ (exists later,
        allPossiblePaths (host := Sample.host) "light" =
        cwdPaths (host := Sample.host) "light" ++
        spec_parentPaths (host := Sample.host) "light" ++ later).
Proof.
  intros [later E].
  apply (f_equal (fun l => nth 6 l EmptyString)) in E.
  vm_compute in E. discriminate E.
Qed.

(** ** ExtractionOrchestrator *)

Section Orchestrator.
Context {host : Host}.
Implicit Types (m : gmap string BaseStyles) (names : list string).

Lemma names_set_add {V : Type} (o : list (string * V)) (k : string) (v : V) :
  Obj.names (Obj.set o k v) = Js.Set_add (Obj.names o) k.
Proof.
  unfold Js.Set_add, Obj.names, Js.Set_has.
  induction o as [|[k0 v0] o IH]; [done|].
  cbn [Obj.set map fst existsb]. rewrite (String.eqb_sym k k0).
  destruct (String.eqb k0 k); [done|].
  cbn [map fst orb]. rewrite IH.
  by destruct (existsb (String.eqb k) (map fst o)).
Qed.

Lemma extractThemeData_message (theme message : string) :
  snd (extractThemeData theme) = NotFound message ->
  message = notFoundMessage theme.
Proof.
  unfold extractThemeData. destruct (tryPaths _) as [log [d|]]; simpl; congruence.
Qed.

(** One turn of the loop, in terms of the styles obtained for the theme. *)
Lemma processTheme_stored m (r : run) (theme : string) :
  processTheme m r theme =
  match stored m theme with
  | Some themeStyles =>
      storeResult r theme themeStyles
        (if bool_decide (m !! theme = None) then resolverCalls r ++ [theme]
         else resolverCalls r)
  | None =>
      {| result := result r; resultChain := resultChain r;
         errors := errors r ++ [mkError theme];
         resolverCalls := resolverCalls r ++ [theme] |}
  end.
Proof.
  unfold processTheme, stored, mkError.
  destruct (m !! theme) as [inlineStyles|] eqn:Em; simpl; [done|].
  destruct (snd (extractThemeData theme)) as [d|msg] eqn:Er; [done|].
  by rewrite (extractThemeData_message _ _ Er).
Qed.

Lemma stored_None m (n : string) : stored m n = None -> m !! n = None.
Proof. unfold stored. by destruct (m !! n). Qed.

Lemma processThemes_from m names (r : run) :
  let r' := fold_left (processTheme m) names r in
  errors r' = errors r ++ map mkError (List.filter (fun n => negb (isStored m n)) names) /\
  resolverCalls r' =
    resolverCalls r ++ List.filter (fun n => bool_decide (m !! n = None)) names /\
  (forall n, n <> "__proto__" ->
     Obj.get (result r') n =
     if Js.Set_has names n then
       match stored m n with Some s => Some s | None => Obj.get (result r) n end
     else Obj.get (result r) n) /\
  (~ In "__proto__" names ->
   Obj.names (result r') = fold_left Js.Set_add (List.filter (isStored m) names)
                                     (Obj.names (result r))).
Proof.
  revert r; induction names as [|x names IH]; intros r; simpl.
  - by rewrite !app_nil_r.
  - destruct (IH (processTheme m r x)) as (He & Hc & Hg & Hk).
    rewrite He, Hc. rewrite processTheme_stored in *. unfold isStored.
    destruct (stored m x) as [s|] eqn:Es; simpl in *.
    + split; [done|]. split.
      { case_bool_decide; simpl; by rewrite <- ?app_assoc. }
      split.
      * intros n Hn. rewrite (Hg n Hn), get_assign by done. simpl.
        rewrite (String.eqb_sym n x).
        destruct (String.eqb_spec x n) as [->|Hne]; simpl; [|done].
        rewrite Es. by destruct (Js.Set_has names n).
      * intros Hnot. rewrite Hk by tauto.
        rewrite assign_ordinary by (intros ->; tauto). simpl.
        by rewrite names_set_add.
    + split; [by rewrite <- app_assoc|]. split.
      { rewrite bool_decide_eq_true_2 by by apply stored_None.
        by rewrite <- app_assoc. }
      split.
      * intros n Hn. rewrite (Hg n Hn). rewrite (String.eqb_sym n x).
        destruct (String.eqb_spec x n) as [->|Hne]; simpl; [|done].
        rewrite Es. by destruct (Js.Set_has names n).
      * intros Hnot. apply Hk. tauto.
Qed.

Lemma processThemes_all m names :
  let r := processThemes m names in
  errors r = map mkError (List.filter (fun n => negb (isStored m n)) names) /\
  resolverCalls r = List.filter (fun n => bool_decide (m !! n = None)) names /\
  (forall n, n <> "__proto__" -> In n names -> Obj.get (result r) n = stored m n) /\
  (~ In "__proto__" names ->
   Obj.keys (result r)
   = Obj.ownOrder (fun k => k) (firstOccurrences (List.filter (isStored m) names))).
Proof.
  intros r. destruct (processThemes_from m names emptyRun) as (He & Hc & Hg & Hk).
  fold (processThemes m names) in He, Hc, Hg, Hk. fold r in He, Hc, Hg, Hk.
  simpl in *. split; [done|]. split; [done|]. split.
  - intros n Hn Hin. rewrite (Hg n Hn). apply Set_has_In in Hin. rewrite Hin.
    by destruct (stored m n).
  - intros Hnot. rewrite keys_names, (Hk Hnot). f_equal.
    apply Set_of_firstOccurrences.
Qed.

Lemma isStored_false m (n : string) :
  isStored m n = false <->
  m !! n = None /\ snd (extractThemeData n) = NotFound (notFoundMessage n).
Proof.
  unfold isStored, stored. destruct (m !! n) as [s|]; [by split; [|intros []]|].
  destruct (snd (extractThemeData n)) as [d|msg] eqn:E; [by split; [|intros []]|].
  by rewrite (extractThemeData_message _ _ E).
Qed.

End Orchestrator.

(** C1.  The code breaks the isolation for a theme named [__proto__].  Of
    the three themes requested here (two by name, one defined inline in the
    stylesheet) only [ghost] fails resolution and the error list names only
    [ghost]; yet the collection holds one theme, not the other two: the
    assignment [result[theme] = ...] for the inline theme [__proto__]
    reaches the setter of [Object.prototype] and creates no entry. *)
Theorem main_proto_theme_dropped :
  option_map fst (collectThemes (host := Sample.host) ["light"; "ghost"] true
                    (Some protoCss))
    = Some ["light"; "ghost"; "__proto__"] /\
  isStored (host := Sample.host) {["__proto__" := [("primary", VStr "#123456")]]} "light"
    = true /\
  isStored (host := Sample.host) {["__proto__" := [("primary", VStr "#123456")]]} "__proto__"
    = true /\
  isStored (host := Sample.host) {["__proto__" := [("primary", VStr "#123456")]]} "ghost"
    = false /\
  option_map (fun r => (Obj.keys (result r), map theme (errors r)))
    (main (host := Sample.host) ["light"; "ghost"] true (Some protoCss))
    = Some (["light"], ["ghost"]).
Proof. repeat split; by vm_compute. Qed.

Lemma filter_none (p : string -> bool) (names : list string) :
  (forall n, In n names -> p n = false) -> List.filter p names = [].
Proof.
  induction names as [|y names IH]; [done|]. intros H. simpl.
  rewrite (H y) by (by left). apply IH. intros n Hn. apply H. by right.
Qed.

Lemma filter_only (p : string -> bool) (names : list string) (x : string) :
  List.NoDup names -> In x names -> p x = true ->
  (forall n, In n names -> n <> x -> p n = false) ->
  List.filter p names = [x].
Proof.
  induction 1 as [|y names Hy Hnd IH]; [done|]. intros [->|Hin] Hx Hrest; simpl.
  - rewrite Hx. f_equal. apply filter_none. intros n Hn.
    apply Hrest; [by right|]. by intros ->.
  - rewrite (Hrest y); [|by left|by intros ->].
    apply IH; [done..|]. intros n Hn. apply Hrest. by right.
Qed.

Lemma filter_remove_length (names : list string) (x : string) :
  List.NoDup names -> In x names ->
  S (length (List.filter (fun n => negb (String.eqb n x)) names)) = length names.
Proof.
  induction 1 as [|y names Hy Hnd IH]; [done|]. intros [->|Hin]; simpl.
  - rewrite String.eqb_refl. simpl. f_equal.
    rewrite List.forallb_filter_id; [done|].
    apply forallb_forall. intros n Hn.
    destruct (String.eqb_spec n x) as [->|]; done.
  - destruct (String.eqb_spec y x) as [->|]; [done|]. simpl. f_equal. by apply IH.
Qed.

Section Merge.
Context {host : Host}.

Lemma inlineThemeMap_dom (inlineThemes : list CssThemeData)
    (m0 : gmap string BaseStyles) (n : string) :
  is_Some (fold_left (fun m t => <[name t := styles t]> m) inlineThemes m0 !! n) <->
  is_Some (m0 !! n) \/ In n (map name inlineThemes).
Proof.
  revert m0; induction inlineThemes as [|t l IH]; intros m0; simpl.
  - tauto.
  - rewrite IH, lookup_insert_is_Some. destruct (decide (name t = n)); tauto.
Qed.

Lemma allThemes_merge (themes themeNames : list string)
    (inlineThemes : list CssThemeData) :
  fst (mergeInlineThemes (mergeThemeNames themes themeNames) inlineThemes) =
  match themeNames, inlineThemes with
  | [], [] => themes
  | _, _ => firstOccurrences (themes ++ themeNames ++ map name inlineThemes)
  end.
Proof.
  unfold mergeInlineThemes, mergeThemeNames.
  destruct themeNames as [|x tn], inlineThemes as [|t il];
    cbn [length Nat.ltb Nat.leb fst].
  - done.
  - by rewrite Set_of_firstOccurrences.
  - by rewrite Set_of_firstOccurrences, !app_nil_r.
  - by rewrite Set_of_app_l, Set_of_firstOccurrences, <- app_assoc.
Qed.

(** C2, amended.  With CSS parsing on, the names are processed in the
    order explicit, then referenced, then inline, without repetitions
    (first occurrences kept) whenever the CSS yields a referenced or an
    inline name, or the explicit list has no repetition; when the CSS
    yields no name at all the explicit list is processed as given.  The
    inline lookup holds exactly the names of the inline records; every
    name it holds is in the final list and is never passed to the
    resolver, and every such name other than [__proto__] takes its styles
    from the lookup.  With no explicit name, the sample stylesheet gives
    light, dark, mediumseagreen, and only light and dark are resolved. *)
Theorem collectThemes_order (themes : list string) (cssContent : string) :
  let themeNames := extractThemeNamesFromCss cssContent in
  let inlineThemes := extractInlineThemesFromCss cssContent in
  (exists allThemes inlineThemeMap,
      collectThemes themes true (Some cssContent) = Some (allThemes, inlineThemeMap) /\
      main themes true (Some cssContent)
        = Some (processThemes inlineThemeMap allThemes) /\
      allThemes =
        match themeNames, inlineThemes with
        | [], [] => themes
        | _, _ => firstOccurrences (themes ++ themeNames ++ map name inlineThemes)
        end /\
      (List.NoDup themes ->
       allThemes = firstOccurrences (themes ++ themeNames ++ map name inlineThemes)) /\
      (forall n, is_Some (inlineThemeMap !! n) <-> In n (map name inlineThemes)) /\
      (forall n inlineStyles,
          inlineThemeMap !! n = Some inlineStyles ->
          In n allThemes /\
          (n <> "__proto__" ->
           Obj.get (result (processThemes inlineThemeMap allThemes)) n
             = Some inlineStyles) /\
          ~ In n (resolverCalls (processThemes inlineThemeMap allThemes)))) /\
  option_map fst (collectThemes (host := Sample.host) [] true (Some Sample.css))
    = Some ["light"; "dark"; "mediumseagreen"] /\
  option_map resolverCalls (main (host := Sample.host) [] true (Some Sample.css))
    = Some ["light"; "dark"].
Proof.
  intros themeNames inlineThemes. split; [|by vm_compute].
  pose (merged := mergeInlineThemes (mergeThemeNames themes themeNames) inlineThemes).
  exists (fst merged), (snd merged).
  assert (forall n, is_Some (snd merged !! n) <-> In n (map name inlineThemes)) as Hdom.
  { intros n. unfold merged, mergeInlineThemes.
    destruct inlineThemes as [|t il] eqn:E; cbn [length Nat.ltb Nat.leb snd].
    - rewrite lookup_empty. split; [by intros [? ?]|done].
    - rewrite inlineThemeMap_dom, lookup_empty. split; [|tauto].
      intros [[? ?]|?]; done. }
  assert (fst merged =
          match themeNames, inlineThemes with
          | [], [] => themes
          | _, _ => firstOccurrences (themes ++ themeNames ++ map name inlineThemes)
          end) as Hall by apply allThemes_merge.
  split; [|split; [|split; [done|split; [|split; [done|]]]]].
  - unfold collectThemes, readCssFile. fold themeNames inlineThemes merged.
    by destruct merged.
  - unfold main, collectThemes, readCssFile. fold themeNames inlineThemes merged.
    by destruct merged.
  - intros Hnd. rewrite Hall.
    destruct themeNames, inlineThemes; try done.
    simpl. rewrite app_nil_r. symmetry. by apply firstOccurrences_id.
  - intros n inlineStyles Hn.
    assert (In n (fst merged)) as Hin.
    { assert (In n (map name inlineThemes)) as Hi by (apply Hdom; eauto).
      rewrite Hall. destruct inlineThemes as [|t il]; [done|].
      assert (In n (firstOccurrences (themes ++ themeNames ++ map name (t :: il)))).
      { apply firstOccurrences_In. rewrite !in_app_iff. tauto. }
      by destruct themeNames. }
    destruct (processThemes_all (snd merged) (fst merged)) as (_ & Hc & Hg & _).
    split; [done|]. split.
    + intros Hproto. rewrite (Hg n Hproto Hin). unfold stored. by rewrite Hn.
    + rewrite Hc. rewrite filter_In. intros [_ Hnone].
      apply bool_decide_eq_true_1 in Hnone. congruence.
Qed.

End Merge.

(** C2 as stated fails: a name given twice on the command line is
    processed twice when the stylesheet declares no theme. *)
Lemma collectThemes_keeps_duplicates :
  option_map fst (collectThemes (host := Sample.host) ["light"; "light"] true
                    (Some "body { color: red; }"))
  <> Some (firstOccurrences
             (["light"; "light"] ++
              extractThemeNamesFromCss "body { color: red; }" ++
              map name (extractInlineThemesFromCss (host := Sample.host)
                          "body { color: red; }"))).
Proof. by vm_compute. Qed.

(** * Further properties *)

(** ** The matcher finds only instances of its pattern *)

Lemma string_app_nil_r (s : string) : s +:+ EmptyString = s.
Proof. induction s as [|c s IH]; [done|]. by rewrite app_cons, IH. Qed.

Lemma string_app_assoc (a b c : string) : (a +:+ b) +:+ c = a +:+ (b +:+ c).
Proof. induction a as [|x a IH]; [done|]. by rewrite !app_cons, IH. Qed.

Lemma allb_app (p : ascii -> bool) (a b : string) :
  allb p (a +:+ b) = allb p a && allb p b.
Proof.
  induction a as [|x a IH]; [done|]. rewrite app_cons. simpl.
  by rewrite IH, andb_assoc.
Qed.

Section Quantifiers.
Context {R : Type} (p : ascii -> bool) (k : string -> string -> option R).

Lemma greedy_sound (taken rest : string) (r : R) :
  Regex.greedy p k taken rest = Some r ->
  exists run rest',
    rest = run +:+ rest' /\ allb p run = true /\ k (taken +:+ run) rest' = Some r.
Proof.
  revert taken; induction rest as [|c rest IH]; intros taken; simpl.
  - intros H. exists EmptyString, EmptyString. by rewrite (string_app_nil_r taken).
  - assert (k taken (String c rest) = Some r ->
            exists run rest', String c rest = run +:+ rest' /\ allb p run = true /\
                              k (taken +:+ run) rest' = Some r) as Hstop.
    { intros H. exists EmptyString, (String c rest). by rewrite (string_app_nil_r taken). }
    destruct (p c) eqn:Ec; [|done].
    destruct (Regex.greedy p k (Regex.snoc taken c) rest) as [r'|] eqn:E; [|done].
    intros [= <-]. destruct (IH _ E) as (run & rest' & -> & Hrun & Hk).
    exists (String c run), rest'. split; [done|]. split; [by simpl; rewrite Ec|].
    unfold Regex.snoc in Hk. by rewrite string_app_assoc in Hk.
Qed.

Lemma lazy_sound (taken rest : string) (r : R) :
  Regex.lazy p k taken rest = Some r ->
  exists run rest',
    rest = run +:+ rest' /\ allb p run = true /\ k (taken +:+ run) rest' = Some r.
Proof.
  revert taken; induction rest as [|c rest IH]; intros taken; simpl.
  - destruct (k taken EmptyString) eqn:E; [|done]. intros [= <-].
    exists EmptyString, EmptyString. by rewrite (string_app_nil_r taken).
  - destruct (k taken (String c rest)) eqn:E.
    + intros [= <-]. exists EmptyString, (String c rest). by rewrite (string_app_nil_r taken).
    + destruct (p c) eqn:Ec; [|done]. intros H.
      destruct (IH _ H) as (run & rest' & -> & Hrun & Hk).
      exists (String c run), rest'. split; [done|]. split; [by simpl; rewrite Ec|].
      unfold Regex.snoc in Hk. by rewrite string_app_assoc in Hk.
Qed.

Lemma once_sound (rest : string) (r : R) :
  Regex.once p k rest = Some r ->
  exists c rest',
    rest = String c rest' /\ p c = true /\ k (String c EmptyString) rest' = Some r.
Proof.
  destruct rest as [|c rest]; simpl; [done|].
  destruct (p c) eqn:Ec; [|done]. intros H. by exists c, rest.
Qed.

Lemma quantified_sound (q : Regex.quant) (rest : string) (r : R) :
  Regex.quantified p k q rest = Some r ->
  exists run rest', rest = run +:+ rest' /\ runOk p q run /\ k run rest' = Some r.
Proof.
  unfold runOk. destruct q; simpl.
  - intros H. destruct (once_sound _ _ H) as (c & rest' & -> & Hc & Hk).
    exists (String c EmptyString), rest'. simpl. by rewrite Hc.
  - destruct (Regex.once p k rest) as [r'|] eqn:E.
    + intros [= <-]. destruct (once_sound _ _ E) as (c & rest' & -> & Hc & Hk).
      exists (String c EmptyString), rest'. simpl. rewrite Hc.
      split; [done|]. split; [|done]. split; [done|lia].
    + intros H. exists EmptyString, rest. simpl.
      split; [done|]. split; [|done]. split; [done|lia].
  - intros H. destruct (greedy_sound _ _ _ H) as (run & rest' & -> & Hrun & Hk).
    by exists run, rest'.
  - destruct rest as [|c rest]; [done|]. destruct (p c) eqn:Ec; [|done]. intros H.
    destruct (greedy_sound _ _ _ H) as (run & rest' & -> & Hrun & Hk).
    exists (String c run), rest'. simpl. by rewrite Ec.
  - intros H. destruct (lazy_sound _ _ _ H) as (run & rest' & -> & Hrun & Hk).
    by exists run, rest'.
Qed.

End Quantifiers.

(** Whatever [exec_at] returns is an instance of the pattern at the start
    of the input: the input is the matched text followed by the returned
    rest, and the returned captures are those of the groups, behind the
    captures passed in. *)
Lemma exec_at_sound (pat : Regex.pattern) (caps : list string) (s : string)
    (caps' : list string) (rest : string) :
  Regex.exec_at pat caps s = Some (caps', rest) ->
  exists consumed new,
    s = consumed +:+ rest /\ caps' = caps ++ new /\ Matches pat consumed rest new.
Proof.
  revert caps s; induction pat as [|node pat IH]; intros caps s; simpl.
  - intros [= <- <-]. exists EmptyString, []. by rewrite app_nil_r.
  - destruct node as [p q|p q|].
    + intros H. apply quantified_sound in H as (run & tail & -> & Hrun & H).
      apply IH in H as (consumed & new & -> & -> & Hm).
      exists (run +:+ consumed), new. rewrite string_app_assoc. eauto 10.
    + intros H. apply quantified_sound in H as (run & tail & -> & Hrun & H).
      apply IH in H as (consumed & new & -> & -> & Hm).
      exists (run +:+ consumed), (run :: new).
      rewrite string_app_assoc, <- app_assoc. simpl. eauto 12.
    + destruct s; [|done]. intros H.
      apply IH in H as (consumed & new & Hs & -> & Hm).
      destruct consumed; [|done]. change (EmptyString = rest) in Hs. subst rest.
      exists EmptyString, new. eauto.
Qed.

Lemma Matches_groups (pat : Regex.pattern) (consumed rest : string) (caps : list string) :
  Matches pat consumed rest caps ->
  List.Forall2 (fun g cap => runOk (fst g) (snd g) cap) (groupsOf pat) caps.
Proof.
  revert consumed caps; induction pat as [|node pat IH]; intros consumed caps; simpl.
  - intros [_ ->]. constructor.
  - destruct node as [p q|p q|].
    + intros (run & tail & _ & _ & H). eauto.
    + intros (run & tail & caps' & _ & Hrun & -> & H). constructor; eauto.
    + intros (_ & _ & H). eauto.
Qed.

(** Every element of [execAll] is the capture list of a successful match
    somewhere in the text. *)
Lemma execAll_In (pat : Regex.pattern) (skip : nat) (s : string) (caps : list string) :
  In caps (Regex.execAll pat skip s) ->
  exists suffix rest, Regex.exec_at pat [] suffix = Some (caps, rest).
Proof.
  revert skip; induction s as [|c s IH]; intros skip.
  - destruct skip; simpl; [|done].
    destruct (Regex.exec_at pat [] EmptyString) as [[caps0 rest]|] eqn:E; [|done].
    intros [<-|[]]. eauto.
  - destruct skip as [|n]; [|apply IH].
    cbn [Regex.execAll].
    destruct (Regex.exec_at pat [] (String c s)) as [[caps0 rest]|] eqn:E; [|apply IH].
    intros [<-|H]; [eauto|by apply IH in H].
Qed.

Lemma single_char (c : ascii) (s : string) :
  allb (Ascii.eqb c) s = true -> String.length s = 1 -> s = String c EmptyString.
Proof.
  destruct s as [|d [|e s]]; try done. simpl. rewrite andb_true_r.
  by intros ->%Ascii.eqb_eq.
Qed.

Lemma optional_char (c : ascii) (s : string) :
  allb (Ascii.eqb c) s = true -> String.length s <= 1 ->
  s = EmptyString \/ s = String c EmptyString.
Proof.
  destruct s as [|d [|e s]]; simpl; [by left| |lia].
  rewrite andb_true_r. intros ->%Ascii.eqb_eq _. by right.
Qed.

(** What a match of [propRegex] looks like. *)
Lemma propRegex_sound (s : string) (caps : list string) (rest : string) :
  Regex.exec_at propRegex [] s = Some (caps, rest) ->
  exists key sp value semi sp2,
    s = key +:+ ":" +:+ sp +:+ value +:+ semi +:+ sp2 /\
    caps = [key; value] /\
    key <> EmptyString /\ contains ":" key = false /\
    allb Js.is_space sp = true /\
    value <> EmptyString /\ contains ";" value = false /\
    (semi = EmptyString \/ semi = ";") /\
    allb Js.is_space sp2 = true.
Proof.
  intros H. apply exec_at_sound in H as (consumed & new & Hs & -> & Hm).
  cbn [propRegex Matches Regex.chr] in Hm.
  destruct Hm as (key & t0 & caps0 & -> & [Hkey Hkey'] & -> &
                  colon & t1 & -> & [Hcolon Hcolon'] &
                  sp & t2 & -> & [Hsp _] &
                  value & t3 & caps1 & -> & [Hvalue Hvalue'] & -> &
                  semi & t4 & -> & [Hsemi Hsemi'] &
                  sp2 & t5 & -> & [Hsp2 _] &
                  -> & -> & _ & ->).
  apply single_char in Hcolon as ->; [|done].
  exists key, sp, value, semi, sp2.
  rewrite !string_app_nil_r in Hs. unfold contains. rewrite Hkey, Hvalue.
  repeat split; try done. by apply optional_char.
Qed.

(** ** Code units of a string *)

Lemma contains_app (c : ascii) (a b : string) :
  contains c (a +:+ b) = contains c a || contains c b.
Proof. unfold contains. by rewrite allb_app, negb_andb. Qed.

Lemma contains_cons (c d : ascii) (s : string) :
  contains c (String d s) = Ascii.eqb c d || contains c s.
Proof. unfold contains, Regex.non. simpl. by rewrite negb_andb, negb_involutive. Qed.

Lemma first_occurrence (c : ascii) (s : string) :
  contains c s = true ->
  exists a b, s = a +:+ String c b /\ contains c a = false.
Proof.
  induction s as [|d s IH]; [done|]. rewrite contains_cons.
  destruct (Ascii.eqb_spec c d) as [<-|Hne]; simpl.
  - intros _. by exists EmptyString, s.
  - intros H. destruct (IH H) as (a & b & -> & Ha).
    exists (String d a), b. split; [done|]. rewrite contains_cons, Ha.
    by destruct (Ascii.eqb_spec c d).
Qed.

Lemma split_unique (c : ascii) (a b a' b' : string) :
  a +:+ String c b = a' +:+ String c b' ->
  contains c a = false -> contains c a' = false -> a = a' /\ b = b'.
Proof.
  revert a'; induction a as [|x a IH]; intros [|x' a']; rewrite ?app_cons.
  - by intros [= ->].
  - intros [= <- _] _. rewrite contains_cons, Ascii.eqb_refl. done.
  - intros [= -> _]. rewrite contains_cons, Ascii.eqb_refl. done.
  - intros [= <- H]. rewrite !contains_cons.
    intros [_ Ha]%orb_false_elim [_ Ha']%orb_false_elim.
    by destruct (IH _ H Ha Ha') as [-> ->].
Qed.

Lemma allb_impl (p q : ascii -> bool) (s : string) :
  (forall c, p c = true -> q c = true) -> allb p s = true -> allb q s = true.
Proof.
  intros Hpq. induction s as [|c s IH]; [done|]. simpl.
  intros [Hc Hs]%andb_prop. by rewrite (Hpq _ Hc), IH.
Qed.

Lemma space_is_not (c x : ascii) :
  Js.is_space c = false -> Js.is_space x = true -> Regex.non c x = true.
Proof.
  intros Hc Hx. unfold Regex.non. destruct (Ascii.eqb_spec c x) as [->|]; [|done].
  congruence.
Qed.

Lemma spaces_contain_no (c : ascii) (s : string) :
  Js.is_space c = false -> allb Js.is_space s = true -> contains c s = false.
Proof.
  intros Hc Hs. unfold contains.
  by rewrite (allb_impl Js.is_space (Regex.non c) s (fun x => space_is_not c x Hc) Hs).
Qed.

Lemma allb_trimStart (p : ascii -> bool) (s : string) :
  allb p s = true -> allb p (Js.trimStart s) = true.
Proof.
  induction s as [|c s IH]; [done|]. simpl.
  intros [Hc Hs]%andb_prop. destruct (Js.is_space c); [by apply IH|].
  simpl. by rewrite Hc, Hs.
Qed.

Lemma allb_trimEnd (p : ascii -> bool) (s : string) :
  allb p s = true -> allb p (Js.trimEnd s) = true.
Proof.
  induction s as [|c s IH]; [done|]. rewrite trimEnd_cons. simpl.
  intros [Hc Hs]%andb_prop. specialize (IH Hs).
  destruct (Js.trimEnd s) as [|d r]; [destruct (Js.is_space c); simpl; by rewrite ?Hc|].
  change (p c && allb p (String d r) = true). by rewrite Hc, IH.
Qed.

Lemma allb_trim (p : ascii -> bool) (s : string) :
  allb p s = true -> allb p (Js.trim s) = true.
Proof. intros H. by apply allb_trimEnd, allb_trimStart. Qed.

Lemma contains_trim (c : ascii) (s : string) :
  contains c s = false -> contains c (Js.trim s) = false.
Proof.
  unfold contains. intros H%negb_false_iff. by rewrite allb_trim.
Qed.

Lemma allb_truncateAtFlag (p : ascii -> bool) (s : string) :
  allb p s = true -> allb p (truncateAtFlag s) = true.
Proof.
  induction s as [|c s IH]; [done|]. rewrite truncateAtFlag_cons. intros H.
  destruct (startsFlag (String c s)); [done|].
  cbn [allb] in *. apply andb_prop in H as [Hc Hs]. by rewrite Hc, IH.
Qed.

Lemma trim_idem (s : string) : Js.trim (Js.trim s) = Js.trim s.
Proof.
  unfold Js.trim at 1.
  rewrite trimStart_id by apply trimEnd_noLead, trimStart_noLead.
  apply trimEnd_idem.
Qed.

Lemma split_pieces (sep : ascii) (p : ascii -> bool) (s piece : string) :
  In piece (Js.split sep s) ->
  contains sep piece = false /\ (allb p s = true -> allb p piece = true).
Proof.
  revert piece; induction s as [|c s IH]; intros piece.
  - intros [<-|[]]. done.
  - cbn [Js.split]. destruct (Ascii.eqb_spec c sep) as [->|Hne].
    + intros [<-|H]; [done|]. destruct (IH _ H) as [H1 H2]. split; [done|].
      simpl. intros [_ Hs]%andb_prop. auto.
    + destruct (Js.split sep s) as [|first others] eqn:E.
      * intros [<-|[]]. rewrite contains_cons.
        destruct (Ascii.eqb_spec sep c) as [->|]; [done|]. split; [done|].
        simpl. by intros [-> _]%andb_prop.
      * intros [<-|H].
        -- destruct (IH first (or_introl eq_refl)) as [H1 H2].
           rewrite contains_cons, H1.
           destruct (Ascii.eqb_spec sep c) as [->|]; [done|]. split; [done|].
           simpl. intros [-> Hs]%andb_prop. by rewrite H2.
        -- destruct (IH piece (or_intror H)) as [H1 H2]. split; [done|].
           simpl. intros [_ Hs]%andb_prop. auto.
Qed.

(** ** Well-formed objects *)

Lemma Set_add_NoDup (s : list string) (x : string) :
  List.NoDup s -> List.NoDup (Js.Set_add s x).
Proof.
  intros H. unfold Js.Set_add. destruct (Js.Set_has s x) eqn:E; [done|].
  apply List.NoDup_app; [done|repeat constructor; by intros []|].
  intros y Hy [<-|[]]. apply Set_has_In in Hy. congruence.
Qed.

Lemma Set_add_In (s : list string) (x y : string) :
  In y (Js.Set_add s x) -> In y s \/ y = x.
Proof.
  unfold Js.Set_add. destruct (Js.Set_has s x); [by left|].
  rewrite in_app_iff. simpl. intuition.
Qed.

Lemma set_names_NoDup {V : Type} (o : list (string * V)) (k : string) (v : V) :
  List.NoDup (Obj.names o) -> List.NoDup (Obj.names (Obj.set o k v)).
Proof. intros H. rewrite names_set_add. by apply Set_add_NoDup. Qed.

Lemma set_Forall {V : Type} (P : string -> Prop) (o : list (string * V))
    (k : string) (v : V) :
  List.Forall (fun kv => P (fst kv)) o -> P k ->
  List.Forall (fun kv => P (fst kv)) (Obj.set o k v).
Proof.
  intros Ho Hk. induction Ho as [|[k0 v0] o H0 Ho IH]; simpl.
  - by repeat constructor.
  - destruct (String.eqb k0 k); constructor; done.
Qed.

Lemma set_fresh {V : Type} (o : list (string * V)) (k : string) (v : V) :
  ~ In k (Obj.names o) -> Obj.set o k v = o ++ [(k, v)].
Proof.
  induction o as [|[k0 v0] o IH]; simpl; [done|]. intros H.
  destruct (String.eqb_spec k0 k) as [->|Hne]; [exfalso; apply H; by left|].
  rewrite IH; [done|]. intros Hin. apply H. by right.
Qed.

Lemma assign_names_NoDup {V : Type} (f : V -> option bool) (o : Obj.object V)
    (k : string) (v : V) :
  List.NoDup (Obj.names (Obj.own o)) ->
  List.NoDup (Obj.names (Obj.own (Obj.assign f o k v))).
Proof.
  intros H. destruct (assign_own f o k v) as [[_ ->]| ->]; [done|].
  by apply set_names_NoDup.
Qed.

Section ConvertedKeys.
Context {host : Host}.

Lemma defineAll_names (raw acc : BaseStyles) :
  Obj.names (defineAll raw acc)
  = fold_left Js.Set_add (map (fun kv => cleanKey (fst kv)) raw) (Obj.names acc).
Proof.
  revert acc; induction raw as [|[k v] raw IH]; intros acc; [done|].
  unfold defineAll in *. simpl. by rewrite IH, names_set_add.
Qed.

Lemma convertInto_NoDup (raw : BaseStyles) (o : Obj.object StyleValue) :
  List.NoDup (Obj.names (Obj.own o)) ->
  List.NoDup (Obj.names (Obj.own (convertInto raw o))).
Proof.
  intros H. induction raw as [|kv raw IH] using rev_ind; [done|].
  rewrite convertInto_snoc. by apply assign_names_NoDup.
Qed.

Lemma convertInto_names (raw : BaseStyles) (o : Obj.object StyleValue) (k : string) :
  In k (Obj.names (Obj.own (convertInto raw o))) ->
  In k (Obj.names (Obj.own o)) \/ exists kv, In kv raw /\ k = cleanKey (fst kv).
Proof.
  induction raw as [|kv raw IH] using rev_ind; [by left|].
  rewrite convertInto_snoc.
  destruct (assign_own prototypeOfValue (convertInto raw o)
              (cleanKey (fst kv)) (convertValue (snd kv))) as [[_ ->]| ->].
  - intros [?|(kv' & Hin & ->)]%IH; [by left|right].
    exists kv'. split; [|done]. apply in_app_iff. by left.
  - rewrite names_set_add. intros [[?|(kv' & Hin & ->)]%IH| ->]%Set_add_In.
    + by left.
    + right. exists kv'. split; [|done]. apply in_app_iff. by left.
    + right. exists kv. split; [|done]. apply in_app_iff. right. by left.
Qed.

Lemma defineAll_injective (raw : BaseStyles) :
  List.NoDup (map (fun kv => cleanKey (fst kv)) raw) ->
  defineAll raw []
  = map (fun kv => (cleanKey (fst kv), convertValue (snd kv))) raw.
Proof.
  induction raw as [|[k v] raw IH] using rev_ind; [done|].
  rewrite !map_app. simpl. intros Hnd.
  pose proof (List.NoDup_remove_2 _ _ _ Hnd) as Hfresh. rewrite app_nil_r in Hfresh.
  apply List.NoDup_app_remove_r in Hnd.
  rewrite defineAll_snoc, (IH Hnd). apply set_fresh.
  unfold Obj.names. by rewrite map_map.
Qed.

(** X1.  The converted style map is always a well-formed object (no key
    twice), and each of its keys is the cleaned form of a raw key of the
    input.  When no raw key cleans to [__proto__], its keys are, in the
    order JavaScript lists them, the cleaned raw keys in the order of the
    loop, each taken at its first occurrence, array indices moved to the
    front. *)
Theorem convertStyles_keys (styles : BaseStyles) :
  List.NoDup (Obj.keys (convertStyles styles)) /\
  (forall k, In k (Obj.keys (convertStyles styles)) ->
             exists kv, In kv styles /\ k = cleanKey (fst kv)) /\
  (List.Forall cleansOrdinary styles ->
   Obj.keys (convertStyles styles)
   = Obj.ownOrder (fun k => k) (firstOccurrences (map cleanKey (Obj.keys styles)))).
Proof.
  split; [|split].
  - apply keys_NoDup. rewrite convertStyles_convertInto.
    apply convertInto_NoDup. constructor.
  - intros k Hk. apply (proj1 (keys_In (convertStyles styles) k)) in Hk.
    rewrite convertStyles_convertInto in Hk.
    apply convertInto_names in Hk as [[]|(kv & Hin%ownOrder_In & ->)]. eauto.
  - intros H. rewrite keys_names, (convertStyles_ordinary _ H), defineAll_names.
    f_equal.
    transitivity (Js.Set_of (map (fun kv => cleanKey (fst kv)) (Obj.entries styles)));
      [done|].
    rewrite Set_of_firstOccurrences. f_equal.
    unfold Obj.keys. by rewrite map_map.
Qed.

(** X2.  When no two raw keys clean to the same key and none cleans to
    [__proto__], conversion works entry by entry: the output has as many
    entries as the input, and lists them as the raw entries are iterated,
    each key cleaned and each value normalised, array indices moved to the
    front. *)
Theorem convertStyles_injective (styles : BaseStyles) :
  List.NoDup (map (fun kv => cleanKey (fst kv)) styles) ->
  List.Forall cleansOrdinary styles ->
  Obj.entries (convertStyles styles)
    = Obj.ownOrder fst
        (map (fun kv => (cleanKey (fst kv), convertValue (snd kv)))
           (Obj.entries styles)) /\
  length (convertStyles styles) = length styles.
Proof.
  intros Hnd Hord.
  assert (convertStyles styles
          = map (fun kv => (cleanKey (fst kv), convertValue (snd kv)))
              (Obj.entries styles)) as E.
  { rewrite (convertStyles_ordinary _ Hord). apply defineAll_injective.
    eapply Permutation_NoDup; [|exact Hnd].
    apply Permutation_map. symmetry. apply ownOrder_perm. }
  rewrite E. split; [done|].
  unfold Obj.entries. by rewrite length_map, ownOrder_length.
Qed.

(** X3.  Conversion leaves an already converted map as it is: on a
    well-formed object none of whose keys starts with two dashes or is
    [__proto__], and none of whose string values holds a functional colour
    notation, the output lists the same entries in the same order as the
    input. *)
Theorem convertStyles_stable (styles : BaseStyles) :
  List.NoDup (Obj.names styles) ->
  List.Forall (fun kv => Js.startsWith (fst kv) "--" = false) styles ->
  List.Forall (fun kv => fst kv <> "__proto__") styles ->
  List.Forall (fun kv => match snd kv with
                         | VStr s => isColor s = false
                         | _ => True
                         end) styles ->
  Obj.entries (convertStyles styles) = Obj.entries styles.
Proof.
  intros Hnd Hkeys Hproto Hvalues.
  assert (forall kv, In kv styles ->
                     (cleanKey (fst kv), convertValue (snd kv)) = kv) as Hid.
  { intros [k v] Hin. rewrite List.Forall_forall in Hkeys, Hvalues.
    specialize (Hkeys _ Hin). specialize (Hvalues _ Hin). simpl in *.
    rewrite (cleanKey_fixed k Hkeys). f_equal.
    destruct v as [s| |]; simpl; [|done..]. by rewrite Hvalues. }
  assert (List.Forall cleansOrdinary styles) as Hord.
  { apply List.Forall_forall. intros [k v] Hin. unfold cleansOrdinary.
    rewrite List.Forall_forall in Hkeys, Hproto. simpl.
    rewrite (cleanKey_fixed k (Hkeys _ Hin)). apply (Hproto _ Hin). }
  assert (map (fun kv => (cleanKey (fst kv), convertValue (snd kv))) (Obj.entries styles)
          = Obj.entries styles) as Hmap.
  { rewrite <- (map_id (Obj.entries styles)) at 2. apply map_ext_in.
    intros kv Hin%ownOrder_In. by apply Hid. }
  rewrite (convertStyles_ordinary _ Hord), defineAll_injective, Hmap.
  - apply ownOrder_idem.
  - replace (map (fun kv => cleanKey (fst kv)) (Obj.entries styles))
      with (map fst (Obj.entries styles)).
    + by apply (keys_NoDup styles).
    + apply map_ext_in. intros kv Hin%ownOrder_In.
      by rewrite <- (Hid kv Hin) at 1.
Qed.

(** X16.  Collisions: two distinct raw keys can clean to the same key (the
    compound and the generic form of [primary] do).  Under every cleaned key
    other than [__proto__] the output holds the converted value of the last
    raw entry, in the order of the loop, that cleans to it; the output never
    has more entries than the input, and for some inputs it has strictly
    fewer. *)
Theorem convertStyles_collision :
  ("--color-primary" <> "--primary" /\
   cleanKey "--color-primary" = "primary" /\ cleanKey "--primary" = "primary") /\
  (forall (styles : BaseStyles) (k : string),
      k <> "__proto__" ->
      Obj.get (convertStyles styles) k =
      option_map (fun kv => convertValue (snd kv))
        (find (fun kv => String.eqb (cleanKey (fst kv)) k) (rev (Obj.entries styles)))) /\
  (forall earlier later : number,
      convertStyles [("--color-primary", VNum earlier); ("--primary", VNum later)]
      = [("primary", VNum later)]) /\
  (forall styles : BaseStyles, length (convertStyles styles) <= length styles) /\
  (exists styles : BaseStyles, length (convertStyles styles) < length styles).
Proof.
  split; [by repeat split|]. split.
  { intros styles k Hk. rewrite convertStyles_convertInto, convertInto_get by done.
    by destruct (find _ _). }
  split; [done|]. split; [apply convertStyles_length_le|].
  exists [("--color-primary", VNum 1%Z); ("--primary", VNum 2%Z)]. simpl. lia.
Qed.

End ConvertedKeys.

Lemma convertStyles_injective_witness :
  Obj.entries (convertStyles (host := Sample.host) Sample.lightBase) =
    [("color-scheme", VStr "light"); ("primary", VStr "#ff0000");
     ("radius-box", VStr "1rem"); ("border", VStr "1px")] /\
  length (convertStyles (host := Sample.host) Sample.lightBase) = 4.
Proof.
  apply (convertStyles_injective (host := Sample.host) Sample.lightBase).
  - repeat constructor; simpl; intros H;
      repeat (destruct H as [H|H]; [discriminate H|]); done.
  - repeat constructor; by vm_compute.
Defined.

Lemma convertStyles_stable_witness :
  Obj.entries
    (convertStyles (host := Sample.host)
       [("color-scheme", VStr "light"); ("primary", VStr "#ff0000"); ("depth", VNum 0%Z)])
  = [("color-scheme", VStr "light"); ("primary", VStr "#ff0000"); ("depth", VNum 0%Z)].
Proof.
  apply (convertStyles_stable (host := Sample.host)).
  - repeat constructor; simpl; intros H;
      repeat (destruct H as [H|H]; [discriminate H|]); done.
  - repeat constructor.
  - repeat constructor; by vm_compute.
  - repeat constructor.
Defined.

(** ** The accumulator of [addBase] calls *)

Lemma find_app_first {A : Type} (f : A -> bool) (a b : list A) :
  find f (a ++ b) = match find f a with Some x => Some x | None => find f b end.
Proof. induction a as [|x a IH]; simpl; [done|]. by destruct (f x). Qed.

Lemma lastEntry_snoc {V : Type} (o : list (string * V)) (k0 : string) (v0 : V)
    (k : string) :
  lastEntry (o ++ [(k0, v0)]) k = if String.eqb k0 k then Some v0 else lastEntry o k.
Proof. unfold lastEntry. rewrite rev_unit. simpl. by destruct (String.eqb k0 k). Qed.

Lemma get_spread {V : Type} (o base : list (string * V)) (k : string) :
  Obj.get (Obj.spread o base) k =
  match lastEntry base k with Some v => Some v | None => Obj.get o k end.
Proof.
  induction base as [|[k0 v0] base IH] using rev_ind; [done|].
  unfold Obj.spread in *. rewrite fold_left_app. simpl.
  rewrite get_set, lastEntry_snoc, IH. by destruct (String.eqb k0 k).
Qed.

Lemma spread_keys_NoDup {V : Type} (o base : list (string * V)) :
  List.NoDup (Obj.names o) -> List.NoDup (Obj.names (Obj.spread o base)).
Proof.
  revert o; induction base as [|[k0 v0] base IH]; intros o Ho; [done|].
  apply IH. by apply set_names_NoDup.
Qed.

Lemma addBases_from (bases : list BaseStyles) (acc : BaseStyles) (k : string) :
  Obj.get (fold_left Obj.spread bases acc) k =
  match lastBase bases k with Some v => Some v | None => Obj.get acc k end.
Proof.
  revert acc; induction bases as [|base bases IH]; intros acc; simpl; [done|].
  rewrite IH, get_spread. by destruct (lastBase bases k).
Qed.

(** X4.  What a theme function hands to [addBase] is merged call by call:
    under every key the accumulator holds the value of the last call that
    set this key (and, inside one call, of its last entry with this key),
    and it is a well-formed object. *)
Theorem addBases_last_wins (bases : list BaseStyles) :
  (forall k, Obj.get (addBases bases) k = lastBase bases k) /\
  List.NoDup (Obj.keys (addBases bases)).
Proof.
  split.
  - intros k. unfold addBases. rewrite addBases_from. by destruct (lastBase bases k).
  - apply keys_NoDup. unfold addBases.
    assert (forall acc : BaseStyles,
               List.NoDup (Obj.names acc) ->
               List.NoDup (Obj.names (fold_left Obj.spread bases acc))) as Hall.
    { induction bases as [|base bases IH]; intros acc Hacc; simpl; [done|].
      apply IH. by apply spread_keys_NoDup. }
    apply Hall. constructor.
Qed.

(** ** Lines of an inline block *)

Lemma app_char (c : ascii) (s : string) : String c EmptyString +:+ s = String c s.
Proof. reflexivity. Qed.

(** X5.  A line of an inline block changes the name or the styles only if,
    once trimmed, it reads: a key without colon, a colon, white space, a
    value without semicolon, at most one semicolon, white space. *)
Theorem parseLine_shape (b : block) (line : string) :
  parseLine b line <> b ->
  exists key sp value semi sp2,
    Js.trim line = key +:+ ":" +:+ sp +:+ value +:+ semi +:+ sp2 /\
    key <> EmptyString /\ contains ":" key = false /\
    allb Js.is_space sp = true /\
    value <> EmptyString /\ contains ";" value = false /\
    (semi = EmptyString \/ semi = ";") /\
    allb Js.is_space sp2 = true.
Proof.
  unfold parseLine. intros Hne.
  destruct (_ || _); [done|].
  destruct (Regex.exec_at propRegex [] (Js.trim line)) as [[caps rest]|] eqn:E; [|done].
  apply propRegex_sound in E
    as (key & sp & value & semi & sp2 & Hs & _ & H1 & H2 & H3 & H4 & H5 & H6 & H7).
  by exists key, sp, value, semi, sp2.
Qed.

Lemma parseLine_shape_witness :
  exists key sp value semi sp2,
    Js.trim "  --radius-box: 1rem;" = key +:+ ":" +:+ sp +:+ value +:+ semi +:+ sp2 /\
    key <> EmptyString /\ contains ":" key = false /\
    allb Js.is_space sp = true /\
    value <> EmptyString /\ contains ";" value = false /\
    (semi = EmptyString \/ semi = ";") /\
    allb Js.is_space sp2 = true.
Proof.
  apply (parseLine_shape {| themeName := EmptyString; blockStyles := [] |}).
  vm_compute. discriminate.
Defined.

(** X6.  One declaration per line: a line whose trimmed text has a
    semicolon with a colon before it and a colon behind it, that is two
    declarations side by side, is skipped as a whole. *)
Theorem parseLine_one_declaration (b : block) (line d1 d2 : string) :
  Js.trim line = d1 +:+ ";" +:+ d2 ->
  contains ":" d1 = true ->
  contains ":" d2 = true ->
  parseLine b line = b.
Proof.
  intros Hline Hd1 Hd2. unfold parseLine.
  destruct (_ || _); [done|].
  destruct (Regex.exec_at propRegex [] (Js.trim line)) as [[caps rest]|] eqn:E; [|done].
  exfalso.
  apply propRegex_sound in E
    as (key & sp & value & semi & sp2 & Hs & _ & _ & Hkey & Hsp & _ & Hvalue & Hsemi & Hsp2).
  rewrite Hline in Hs.
  destruct (first_occurrence _ _ Hd1) as (k1 & x & -> & Hk1).
  rewrite !string_app_assoc, !app_char, !app_cons in Hs.
  apply split_unique in Hs as [<- Hs]; [|done..].
  assert (contains ";" (sp +:+ value) = false) as Hbody.
  { rewrite contains_app, Hvalue, orb_false_r. by apply spaces_contain_no. }
  destruct Hsemi as [->| ->].
  - apply (f_equal (contains ";")) in Hs.
    rewrite !contains_app, contains_cons, Hvalue in Hs.
    rewrite (spaces_contain_no ";" sp), (spaces_contain_no ";" sp2) in Hs by done.
    simpl in Hs. rewrite orb_true_r in Hs. done.
  - rewrite <- (string_app_assoc sp value), app_char in Hs.
    destruct (contains ";" x) eqn:Ex.
    + destruct (first_occurrence _ _ Ex) as (x1 & x2 & -> & Hx1).
      rewrite string_app_assoc, app_cons in Hs.
      apply split_unique in Hs as [_ Hs]; [|done..].
      apply (f_equal (contains ";")) in Hs.
      rewrite contains_app, contains_cons, (spaces_contain_no ";" sp2) in Hs by done.
      simpl in Hs. by rewrite orb_true_r in Hs.
    + apply split_unique in Hs as [_ <-]; [|done..].
      rewrite (spaces_contain_no ":" d2) in Hd2 by done. done.
Qed.

Lemma parseLine_one_declaration_witness :
  parseLine {| themeName := EmptyString; blockStyles := [] |}
    "name: mediumseagreen; --color-primary: red;"
  = {| themeName := EmptyString; blockStyles := [] |}.
Proof.
  apply (parseLine_one_declaration _ _ "name: mediumseagreen" " --color-primary: red;");
    reflexivity.
Defined.

(** ** What an inline block yields *)

Lemma set_Forall_entry {V : Type} (P : string * V -> Prop) (o : list (string * V))
    (k : string) (v : V) :
  List.Forall P o -> P (k, v) -> List.Forall P (Obj.set o k v).
Proof.
  intros Ho Hk. induction Ho as [|[k0 v0] o H0 Ho IH]; simpl.
  - by repeat constructor.
  - destruct (String.eqb_spec k0 k) as [->|_]; constructor; done.
Qed.

Lemma get_None_names {V : Type} (o : list (string * V)) (k : string) :
  Obj.get o k = None -> ~ In k (Obj.names o).
Proof.
  induction o as [|[k0 v0] o IH]; simpl; [by intros _ []|].
  destruct (String.eqb_spec k0 k) as [->|Hne]; [done|].
  intros H [?|Hin]; [done|]. by apply IH.
Qed.

(** What [parseLine] keeps true of the name and the raw styles. *)
Lemma parseLine_invariant (b : block) (line : string) :
  let ok (b : block) :=
    Js.trim (themeName b) = themeName b /\
    contains ";" (themeName b) = false /\
    List.Forall (fun kv => storable (fst kv)) (blockStyles b) /\
    List.Forall (fun kv => exists s, snd kv = VStr s) (blockStyles b) /\
    List.NoDup (Obj.names (blockStyles b)) in
  ok b -> ok (parseLine b line).
Proof.
  intros ok (Hn1 & Hn2 & Hs1 & Hs3 & Hs2). unfold parseLine.
  destruct (_ || _); [done|].
  destruct (Regex.exec_at propRegex [] (Js.trim line)) as [[caps rest]|] eqn:E; [|done].
  apply propRegex_sound in E
    as (key & sp & value & semi & sp2 & _ & -> & _ & _ & _ & _ & Hvalue & _).
  cbn [Regex.group nth Nat.sub].
  destruct (String.eqb (Js.trim key) "name").
  { split; [apply trim_idem|]. split; [by apply contains_trim|done]. }
  destruct (Js.startsWith (Js.trim key) "--") eqn:Ek.
  { do 2 (split; [done|]). split; [apply set_Forall; [done|by right]|].
    split; [apply set_Forall_entry; [done|by eexists]|].
    by apply set_names_NoDup. }
  destruct (String.eqb (Js.trim key) "color-scheme"); [|done].
  do 2 (split; [done|]). split; [apply set_Forall; [done|by left]|].
  split; [apply set_Forall_entry; [done|by eexists]|].
  by apply set_names_NoDup.
Qed.

Lemma parseBlock_invariant (blockContent : string) :
  Js.trim (themeName (parseBlock blockContent)) = themeName (parseBlock blockContent) /\
  contains ";" (themeName (parseBlock blockContent)) = false /\
  List.Forall (fun kv => storable (fst kv)) (blockStyles (parseBlock blockContent)) /\
  List.Forall (fun kv => exists s, snd kv = VStr s)
    (blockStyles (parseBlock blockContent)) /\
  List.NoDup (Obj.names (blockStyles (parseBlock blockContent))).
Proof.
  unfold parseBlock.
  assert (forall lines b,
             (Js.trim (themeName b) = themeName b /\
              contains ";" (themeName b) = false /\
              List.Forall (fun kv => storable (fst kv)) (blockStyles b) /\
              List.Forall (fun kv => exists s, snd kv = VStr s) (blockStyles b) /\
              List.NoDup (Obj.names (blockStyles b))) ->
             let b' := fold_left parseLine lines b in
             Js.trim (themeName b') = themeName b' /\
             contains ";" (themeName b') = false /\
             List.Forall (fun kv => storable (fst kv)) (blockStyles b') /\
             List.Forall (fun kv => exists s, snd kv = VStr s) (blockStyles b') /\
             List.NoDup (Obj.names (blockStyles b'))) as Hfold.
  { induction lines as [|line lines IH]; intros b Hb; [done|].
    simpl. apply IH. by apply parseLine_invariant. }
  apply Hfold. simpl. repeat split; constructor.
Qed.

Section InlineRecords.
Context {host : Host}.

(** Converting string values: the prototype of [converted] is never
    replaced, and no own property [__proto__] appears. *)
Lemma convertInto_strings (raw : BaseStyles) (o : Obj.object StyleValue) :
  List.Forall (fun kv => exists s, snd kv = VStr s) raw ->
  List.Forall (fun kv => exists s, snd kv = VStr s) (Obj.own o) ->
  Obj.chain o = false ->
  Obj.get (Obj.own o) "__proto__" = None ->
  List.Forall (fun kv => exists s, snd kv = VStr s) (Obj.own (convertInto raw o)) /\
  Obj.chain (convertInto raw o) = false /\
  Obj.get (Obj.own (convertInto raw o)) "__proto__" = None.
Proof.
  intros Hraw Ho Hc Hg. induction raw as [|[k v] raw IH] using rev_ind; [done|].
  apply List.Forall_app in Hraw as [Hraw Hkv].
  apply List.Forall_inv in Hkv as [s Hs]. simpl in Hs. subst v.
  destruct (IH Hraw) as (IH1 & IH2 & IH3). clear IH.
  rewrite convertInto_snoc. cbn [fst snd].
  assert (exists s', convertValue (VStr s) = VStr s') as [s' ->].
  { simpl. destruct (isColor s); by eexists. }
  unfold Obj.assign. rewrite IH2.
  destruct (String.eqb_spec (cleanKey k) "__proto__") as [E|Hne].
  - rewrite E, IH3. simpl. done.
  - simpl. split; [apply set_Forall_entry; [done|by eexists]|]. split; [done|].
    rewrite get_set. by destruct (String.eqb_spec (cleanKey k) "__proto__").
Qed.

Lemma extractInlineThemesFromCss_In (cssContent : string) (t : CssThemeData) :
  In t (extractInlineThemesFromCss cssContent) ->
  exists blockContent, emitBlock blockContent = [t].
Proof.
  unfold extractInlineThemesFromCss. rewrite fold_left_push. simpl.
  intros (match_ & _ & Hin)%in_flat_map. exists (Regex.group 1 match_).
  unfold emitBlock in *. destruct (_ && _); [|done]. by destruct Hin as [<-|[]].
Qed.

(** X7.  Every record the inline parser returns has a name that is not
    empty, carries no white space at either end and holds no semicolon;
    its style map is a well-formed object that has no own key [__proto__],
    and every value in it is a string. *)
Theorem extractInlineThemesFromCss_records (cssContent : string) (t : CssThemeData) :
  In t (extractInlineThemesFromCss cssContent) ->
  name t <> EmptyString /\
  Js.trim (name t) = name t /\
  contains ";" (name t) = false /\
  List.NoDup (Obj.keys (styles t)) /\
  ~ In "__proto__" (Obj.keys (styles t)) /\
  List.Forall (fun kv => exists s, snd kv = VStr s) (styles t).
Proof.
  intros (blockContent & Hemit)%extractInlineThemesFromCss_In.
  unfold emitBlock in Hemit.
  destruct (parseBlock_invariant blockContent) as (Hn1 & Hn2 & _ & Hs3 & Hs2).
  destruct (nonEmpty (themeName (parseBlock blockContent))) eqn:En; [|done].
  destruct (0 <? _); [|done].
  simpl in Hemit. injection Hemit as <-. simpl.
  split; [by apply nonEmpty_true|]. do 2 (split; [done|]).
  destruct (convertInto_strings (Obj.entries (blockStyles (parseBlock blockContent)))
              {| Obj.own := []; Obj.chain := false |}) as (H1 & _ & H3);
    [|done..|].
  { apply List.Forall_forall. intros kv Hin%ownOrder_In.
    rewrite List.Forall_forall in Hs3. by apply Hs3. }
  rewrite <- convertStyles_convertInto in H1, H3.
  split; [|split; [|done]].
  - apply keys_NoDup. rewrite convertStyles_convertInto.
    apply convertInto_NoDup. constructor.
  - intros Hin. apply (proj1 (keys_In (convertStyles _) _)) in Hin.
    by apply get_None_names in H3.
Qed.

End InlineRecords.

Lemma extractInlineThemesFromCss_records_witness :
  name {| name := "mediumseagreen";
          styles := [("color-scheme", VStr "light"); ("primary", VStr "#ff0000")] |}
    <> EmptyString /\
  Js.trim "mediumseagreen" = "mediumseagreen".
Proof.
  destruct (extractInlineThemesFromCss_records (host := Sample.host) Sample.css
              {| name := "mediumseagreen";
                 styles := [("color-scheme", VStr "light"); ("primary", VStr "#ff0000")] |})
    as (H1 & H2 & _).
  - vm_compute. by left.
  - split; [exact H1|exact H2].
Defined.

(** ** Names of a reference block *)

Lemma pluginRegex_group (cssContent : string) (match_ : list string) :
  In match_ (Regex.execAll pluginRegex 0 cssContent) ->
  allb (Regex.non ";") (Regex.group 1 match_) = true /\
  Regex.group 1 match_ <> EmptyString.
Proof.
  intros (suffix & rest & H)%execAll_In.
  apply exec_at_sound in H as (consumed & new & _ & -> & Hm).
  apply Matches_groups in Hm.
  change (groupsOf pluginRegex) with [(Regex.non ";", Regex.Many1)] in Hm.
  inversion Hm as [|g cap gs caps [Hrun Hne] Hrest]; subst.
  inversion Hrest; subst. done.
Qed.

Lemma cleanThemeName_keeps (p : ascii -> bool) (t : string) :
  allb p t = true -> allb p (cleanThemeName t) = true.
Proof.
  intros H. unfold cleanThemeName. rewrite splitHead_truncateAtFlag.
  by apply allb_trim, allb_truncateAtFlag, allb_trim.
Qed.

(** X8.  Every name the reference parser returns is not empty, carries no
    white space at either end, and holds neither a comma nor a
    semicolon. *)
Theorem extractThemeNamesFromCss_names (cssContent n : string) :
  In n (extractThemeNamesFromCss cssContent) ->
  n <> EmptyString /\ Js.trim n = n /\
  contains "," n = false /\ contains ";" n = false.
Proof.
  unfold extractThemeNamesFromCss.
  rewrite Set_of_firstOccurrences, fold_left_push, firstOccurrences_In. simpl.
  intros (match_ & Hmatch & Hin)%in_flat_map.
  destruct (pluginRegex_group _ _ Hmatch) as [Hsemi _].
  unfold themesOfBlock in Hin.
  apply filter_In in Hin as [Hin Hne].
  apply in_map_iff in Hin as (piece & <- & Hpiece).
  destruct (split_pieces "," (Regex.non ";") _ _ Hpiece) as [Hcomma Hkeep].
  split; [by apply nonEmpty_true|]. split; [apply trim_idem|].
  unfold contains in *. apply negb_false_iff in Hcomma.
  by rewrite !cleanThemeName_keeps; auto.
Qed.

Lemma extractThemeNamesFromCss_names_witness :
  "dark" <> EmptyString /\ Js.trim "dark" = "dark" /\
  contains "," "dark" = false /\ contains ";" "dark" = false.
Proof.
  apply (extractThemeNamesFromCss_names Sample.css "dark").
  vm_compute. right. by left.
Defined.

(** ** What the resolver imports *)

Section Imports.
Context {host : Host}.

Lemma tryPaths_log (paths : list string) :
  exists n, fst (tryPaths paths) = map (String.append "file://") (firstn n paths).
Proof.
  induction paths as [|p paths [n IH]]; [by exists 0|]. simpl.
  destruct (tryPaths paths) as [log r]. simpl in IH.
  destruct (import ("file://" +:+ p)) as [|[|bases [|]]];
    try (exists (S n); simpl; by rewrite IH).
  by exists 1.
Qed.

Lemma extractThemeData_log (themeName : string) :
  fst (extractThemeData themeName) = fst (tryPaths (existingPaths themeName)).
Proof. unfold extractThemeData. by destruct (tryPaths _) as [log [d|]]. Qed.

Lemma map_NoDup_inj {A B : Type} (f : A -> B) (l : list A) :
  (forall a b, f a = f b -> a = b) -> List.NoDup l -> List.NoDup (map f l).
Proof.
  intros Hinj. induction 1 as [|x l Hx H IH]; simpl; constructor; [|done].
  intros (y & Hy & Hin)%in_map_iff. apply Hinj in Hy as ->. done.
Qed.

Lemma firstn_incl {A : Type} (n : nat) (l : list A) (x : A) :
  In x (firstn n l) -> In x l.
Proof.
  revert n; induction l as [|y l IH]; intros [|n]; simpl; try done.
  intros [->|H]; [by left|right; by apply (IH n)].
Qed.

Lemma firstn_NoDup {A : Type} (n : nat) (l : list A) :
  List.NoDup l -> List.NoDup (firstn n l).
Proof.
  intros H. revert n; induction H as [|x l Hx H IH]; intros [|n]; simpl;
    try constructor; [|apply IH].
  intros Hin. apply Hx. by apply (firstn_incl n).
Qed.

(** X9.  [extractThemeData] imports a leading part of the existing
    candidates, in their order; it imports no file twice, nothing that
    [existsSync] rejects and nothing outside the candidate list. *)
Theorem extractThemeData_imports (themeName : string) :
  (exists n, fst (extractThemeData themeName)
             = map (String.append "file://") (firstn n (existingPaths themeName))) /\
  List.NoDup (fst (extractThemeData themeName)) /\
  (forall specifier, In specifier (fst (extractThemeData themeName)) ->
     exists themePath,
       specifier = "file://" +:+ themePath /\
       existsSync themePath = true /\
       In themePath (allPossiblePaths themeName)).
Proof.
  rewrite extractThemeData_log.
  destruct (tryPaths_log (existingPaths themeName)) as [n Hlog].
  split; [by exists n|]. rewrite Hlog. split.
  - apply map_NoDup_inj.
    + intros a b H. by injection H.
    + apply firstn_NoDup. unfold existingPaths, uniquePaths.
      apply List.NoDup_filter. rewrite Set_of_firstOccurrences.
      apply firstOccurrences_NoDup.
  - intros specifier (p & <- & Hin)%in_map_iff. exists p. split; [done|].
    apply firstn_incl in Hin. unfold existingPaths, uniquePaths in Hin.
    apply filter_In in Hin as [Hin Hex]. split; [done|].
    by rewrite Set_of_firstOccurrences, firstOccurrences_In in Hin.
Qed.

End Imports.

(** ** Runs of [main] *)

Section Runs.
Context {host : Host}.
Implicit Types (m : gmap string BaseStyles) (names : list string).

(** X10.  Without [--read-css] the stylesheet plays no part: the explicit
    names are processed as given, none has an inline definition, and each of
    them goes to the resolver, in order.  With [--read-css], a stylesheet
    that cannot be read ends the run before any theme is processed. *)
Theorem main_without_css (themes : list string) (cssFile : option string) :
  main themes false cssFile = Some (processThemes ∅ themes) /\
  resolverCalls (processThemes ∅ themes) = themes /\
  main themes true None = None.
Proof.
  split; [done|]. split; [|done].
  destruct (processThemes_all ∅ themes) as (_ & -> & _).
  apply List.forallb_filter_id, forallb_forall. intros n _.
  by rewrite lookup_empty.
Qed.

(** X11.  Whatever the name list, repeated names included: the error list
    names, in order, every occurrence of a name for which nothing could be
    stored; the resolver is called for every occurrence of a name that has
    no inline definition; and under every requested name other than
    [__proto__] for which something could be stored the collection holds
    the styles stored for it.  When [__proto__] is not requested, the
    collection lists every name for which something could be stored once,
    in the order of first occurrence with array indices moved to the front,
    and each requested name ends up either in the collection or in the
    error list, never in both. *)
Theorem processThemes_partition m names :
  let r := processThemes m names in
  map theme (errors r) = List.filter (fun n => negb (isStored m n)) names /\
  resolverCalls r = List.filter (fun n => bool_decide (m !! n = None)) names /\
  (forall n, n <> "__proto__" -> In n names -> Obj.get (result r) n = stored m n) /\
  (~ In "__proto__" names ->
   Obj.keys (result r)
     = Obj.ownOrder (fun k => k) (firstOccurrences (List.filter (isStored m) names)) /\
   (forall n, In n names ->
      (In n (Obj.keys (result r)) /\ ~ In n (map theme (errors r))) \/
      (~ In n (Obj.keys (result r)) /\ In n (map theme (errors r))))).
Proof.
  intros r. destruct (processThemes_all m names) as (He & Hc & Hg & Hk).
  fold r in He, Hc, Hg, Hk.
  assert (map theme (errors r) = List.filter (fun n => negb (isStored m n)) names) as He'.
  { rewrite He, map_map. simpl. apply map_id. }
  split; [done|]. split; [done|]. split; [done|].
  intros Hnot. split; [by apply Hk|].
  intros n Hn. rewrite He', (Hk Hnot), ownOrder_In, firstOccurrences_In, !filter_In.
  destruct (isStored m n) eqn:E; simpl; [left|right]; split; try done;
    by intros [_ ?].
Qed.

Lemma inlineThemeMap_lookup (inlineThemes : list CssThemeData)
    (m0 : gmap string BaseStyles) (n : string) :
  fold_left (fun m t => <[name t := styles t]> m) inlineThemes m0 !! n =
  match lastInline inlineThemes n with Some s => Some s | None => m0 !! n end.
Proof.
  revert m0; induction inlineThemes as [|t l IH]; intros m0; [done|].
  simpl. rewrite IH. unfold lastInline. simpl. rewrite find_app_first.
  destruct (find _ (rev l)) as [t'|]; simpl; [done|].
  destruct (String.eqb_spec (name t) n) as [<-|Hne]; simpl.
  - by rewrite lookup_insert_eq.
  - by rewrite lookup_insert_ne.
Qed.

Lemma lastInline_In (inlineThemes : list CssThemeData) (n : string) (s : BaseStyles) :
  lastInline inlineThemes n = Some s -> In n (map name inlineThemes).
Proof.
  unfold lastInline. destruct (find _ _) as [t|] eqn:E; [|done]. intros _.
  apply find_some in E as [Hin Hn]. apply String.eqb_eq in Hn as <-.
  apply in_map. by apply in_rev.
Qed.

(** X12.  When a stylesheet defines an inline theme of the same name,
    other than [__proto__], more than once, the collection holds the styles
    of the last of these blocks. *)
Theorem main_last_inline (themes : list string) (cssContent : string)
    (r : run) (n : string) (s : BaseStyles) :
  main themes true (Some cssContent) = Some r ->
  lastInline (extractInlineThemesFromCss cssContent) n = Some s ->
  n <> "__proto__" ->
  Obj.get (result r) n = Some s.
Proof.
  unfold main, collectThemes, readCssFile.
  remember (extractThemeNamesFromCss cssContent) as themeNames eqn:Etn.
  remember (extractInlineThemesFromCss cssContent) as inlineThemes eqn:Eil.
  pose proof (allThemes_merge themes themeNames inlineThemes) as Hall.
  destruct (mergeInlineThemes _ inlineThemes) as [allThemes m] eqn:Em.
  intros [= <-] Hlast Hproto. simpl in Hall.
  pose proof (lastInline_In _ _ _ Hlast) as Hin.
  assert (m !! n = Some s) as Hm.
  { unfold mergeInlineThemes in Em. destruct inlineThemes as [|t l]; [done|].
    cbn [length Nat.ltb Nat.leb] in Em.
    assert (m = fold_left (fun m t => <[name t := styles t]> m) (t :: l) ∅) as ->
      by congruence.
    by rewrite inlineThemeMap_lookup, Hlast. }
  assert (In n allThemes) as Hn.
  { rewrite Hall. destruct inlineThemes as [|t l]; [done|].
    assert (In n (firstOccurrences (themes ++ themeNames ++ map name (t :: l)))).
    { apply firstOccurrences_In. rewrite !in_app_iff. tauto. }
    by destruct themeNames. }
  destruct (processThemes_all m allThemes) as (_ & _ & Hg & _).
  rewrite (Hg n Hproto Hn). unfold stored. by rewrite Hm.
Qed.

(** X13.  Names from the stylesheet never displace explicit names: when
    the explicit list has no repetition, the final list is the explicit
    list followed by the names the stylesheet adds to it, each once. *)
Theorem collectThemes_explicit_first (themes : list string) (cssContent : string) :
  List.NoDup themes ->
  exists extra inlineThemeMap,
    collectThemes themes true (Some cssContent)
      = Some (themes ++ extra, inlineThemeMap) /\
    List.NoDup (themes ++ extra) /\
    (forall n, In n extra <->
       ~ In n themes /\
       In n (extractThemeNamesFromCss cssContent ++
             map name (extractInlineThemesFromCss cssContent))).
Proof.
  intros Hnd. unfold collectThemes, readCssFile.
  remember (extractThemeNamesFromCss cssContent) as themeNames eqn:Etn.
  remember (extractInlineThemesFromCss cssContent) as inlineThemes eqn:Eil.
  pose proof (allThemes_merge themes themeNames inlineThemes) as Hall.
  destruct (mergeInlineThemes _ inlineThemes) as [allThemes m].
  simpl in Hall.
  set (added := themeNames ++ map name inlineThemes).
  assert (allThemes = firstOccurrences (themes ++ added)) as Hfo.
  { rewrite Hall. unfold added. destruct themeNames, inlineThemes; try done.
    simpl. rewrite app_nil_r. symmetry. by apply firstOccurrences_id. }
  exists (firstOccurrences (List.filter (fun x => negb (Js.Set_has themes x)) added)), m.
  assert (allThemes =
          themes ++ firstOccurrences
                      (List.filter (fun x => negb (Js.Set_has themes x)) added)) as Hsplit.
  { rewrite Hfo, <- Set_of_firstOccurrences. unfold Js.Set_of.
    rewrite fold_left_app.
    change (fold_left Js.Set_add themes []) with (Js.Set_of themes).
    rewrite Set_of_firstOccurrences, (firstOccurrences_id themes Hnd).
    apply Set_add_all. }
  split; [congruence|]. split.
  - rewrite <- Hsplit, Hfo. apply firstOccurrences_NoDup.
  - intros n. rewrite firstOccurrences_In, filter_In, negb_true_iff.
    rewrite <- (Set_has_In themes n).
    destruct (Js.Set_has themes n); intuition congruence.
Qed.

(** X17.  Over a name list without duplicates that does not hold
    [__proto__] the loop of [main] records, for every name that has no
    inline definition and for which the resolver fails, one error entry
    naming that theme, in processing order, and goes on with the remaining
    names: the collection holds exactly the other names, each with the
    styles stored for it, in processing order with array indices moved to
    the front.  When exactly one of three names fails, the collection holds
    exactly the two others and the error list is the single entry of the
    failed theme. *)
Theorem processThemes_isolation m names :
  List.NoDup names ->
  ~ In "__proto__" names ->
  let r := processThemes m names in
  (forall n, isStored m n = false <->
             m !! n = None /\
             snd (extractThemeData n) = NotFound (notFoundMessage n)) /\
  errors r =
    map (fun n => {| theme := n; error := notFoundMessage n |})
      (List.filter (fun n => negb (isStored m n)) names) /\
  Obj.keys (result r) = Obj.ownOrder (fun k => k) (List.filter (isStored m) names) /\
  (forall n, In n names -> Obj.get (result r) n = stored m n) /\
  (forall failed,
      length names = 3 -> In failed names -> isStored m failed = false ->
      (forall n, In n names -> n <> failed -> isStored m n = true) ->
      errors r = [{| theme := failed; error := notFoundMessage failed |}] /\
      Obj.keys (result r) =
        Obj.ownOrder (fun k => k)
          (List.filter (fun n => negb (String.eqb n failed)) names) /\
      length (Obj.keys (result r)) = 2).
Proof.
  intros Hnd Hnot r.
  destruct (processThemes_all m names) as (He & _ & Hg & Hk).
  fold r in He, Hg, Hk. specialize (Hk Hnot).
  assert (Obj.keys (result r)
          = Obj.ownOrder (fun k => k) (List.filter (isStored m) names)) as Hkeys.
  { rewrite Hk. f_equal. by apply firstOccurrences_id, List.NoDup_filter. }
  split; [apply isStored_false|]. split; [done|]. split; [done|]. split.
  { intros n Hn. apply Hg; [|done]. by intros ->. }
  intros failed Hlen Hin Hfail Hothers.
  assert (List.filter (isStored m) names =
          List.filter (fun n => negb (String.eqb n failed)) names) as Hsame.
  { apply filter_ext_in. intros n Hn.
    destruct (String.eqb_spec n failed) as [->|Hne]; simpl; [done|by apply Hothers]. }
  split.
  { rewrite He. rewrite (filter_only _ names failed); [done..| |].
    - by rewrite Hfail.
    - intros n Hn Hne. by rewrite Hothers. }
  rewrite Hkeys, Hsame. split; [done|]. rewrite ownOrder_length.
  pose proof (filter_remove_length names failed Hnd Hin). lia.
Qed.

End Runs.

Lemma main_last_inline_witness :
  Obj.get
    (result (processThemes (host := Sample.host)
               {["brand" := [("primary", VStr "#222222")]]} ["brand"]))
    "brand"
  = Some [("primary", VStr "#222222")].
Proof.
  apply (main_last_inline (host := Sample.host) [] twiceCss); by vm_compute.
Defined.

Lemma collectThemes_explicit_first_witness :
  exists extra inlineThemeMap,
    collectThemes (host := Sample.host) ["ghost"; "dark"] true (Some Sample.css)
      = Some (["ghost"; "dark"] ++ extra, inlineThemeMap) /\
    List.NoDup (["ghost"; "dark"] ++ extra) /\
    (forall n, In n extra <->
       ~ In n ["ghost"; "dark"] /\
       In n (extractThemeNamesFromCss Sample.css ++
             map name (extractInlineThemesFromCss (host := Sample.host) Sample.css))).
Proof.
  apply (collectThemes_explicit_first (host := Sample.host)).
  repeat constructor; simpl; intros H;
    repeat (destruct H as [H|H]; [discriminate H|]); done.
Defined.


(** In the sample installation, of [light], [ghost] and [dark] only [ghost]
    cannot be resolved. *)
Lemma processThemes_isolation_witness :
  let r := processThemes (host := Sample.host) ∅ ["light"; "ghost"; "dark"] in
  errors r = [{| theme := "ghost";
                 error := "Could not import theme 'ghost' from any known path in node_modules" |}] /\
  Obj.keys (result r) = ["light"; "dark"] /\
  length (Obj.keys (result r)) = 2.
Proof.
  assert (List.NoDup ["light"; "ghost"; "dark"]) as Hnd.
  { repeat constructor; simpl; intros H;
      repeat (destruct H as [H|H]; [discriminate H|]); done. }
  assert (~ In "__proto__" ["light"; "ghost"; "dark"]) as Hnot.
  { simpl; intros H; repeat (destruct H as [H|H]; [discriminate H|]); done. }
  apply (proj2 (proj2 (proj2 (proj2
    (processThemes_isolation (host := Sample.host) ∅ ["light"; "ghost"; "dark"] Hnd Hnot))))
    "ghost").
  - reflexivity.
  - right; by left.
  - by vm_compute.
  - intros n [<-|[<-|[<-|[]]]] Hne; try done; by vm_compute.
Defined.

(** ** Command line *)

Lemma trimStart_nil (s : string) :
  Js.trimStart s = EmptyString <-> allb Js.is_space s = true.
Proof.
  induction s as [|c s IH]; [done|]. simpl.
  destruct (Js.is_space c); [done|]. split; discriminate.
Qed.

Lemma trimEnd_nil (s : string) : noLead s -> Js.trimEnd s = EmptyString -> s = EmptyString.
Proof.
  destruct s as [|c s]; [done|]. simpl. intros ->. by destruct (Js.trimEnd s).
Qed.

Lemma trim_nil (s : string) : Js.trim s = EmptyString <-> allb Js.is_space s = true.
Proof.
  rewrite <- trimStart_nil. unfold Js.trim. split.
  - apply trimEnd_nil, trimStart_noLead.
  - by intros ->.
Qed.

Lemma split_all (sep : ascii) (q : ascii -> bool) (s : string) :
  List.Forall (fun piece => allb q piece = true) (Js.split sep s) <->
  allb (fun c => q c || Ascii.eqb c sep) s = true.
Proof.
  induction s as [|c s IH].
  - simpl. split; [done|]. by repeat constructor.
  - cbn [Js.split allb]. destruct (Ascii.eqb c sep) eqn:E.
    + rewrite orb_true_r, Forall_cons_iff, IH. simpl. tauto.
    + rewrite orb_false_r, andb_true_iff, <- IH.
      destruct (Js.split sep s) as [|first others].
      * rewrite !Forall_cons_iff. simpl. rewrite andb_true_r.
        split; [by intros [? _]|intros [? _]; by repeat constructor].
      * rewrite !Forall_cons_iff. simpl. rewrite andb_true_iff. tauto.
Qed.

Lemma splitThemes_nil (themesInput : string) :
  Cli.splitThemes themesInput = [] <->
  allb (fun c => Js.is_space c || Ascii.eqb c ",") themesInput = true.
Proof.
  rewrite <- split_all. unfold Cli.splitThemes.
  induction (Js.split "," themesInput) as [|piece pieces IH]; simpl.
  - split; [by constructor|done].
  - rewrite Forall_cons_iff, <- IH, <- trim_nil.
    destruct (Js.trim piece) eqn:E; simpl; [tauto|].
    split; [done|by intros [? _]].
Qed.

(** X14.  With the arguments parsed and no help asked for, the run is
    refused with exit code 1 exactly when [--read-css] is off and the
    theme input (the flag, else the first positional) holds nothing but
    commas and white space. *)
Theorem parseArguments_refuses (resolve : string -> string) (values : Cli.Values)
    (positionals : list string) :
  Cli.parseArguments resolve (Cli.ParseArgsReturns values positionals) = Cli.Exit 1 <->
  Cli.v_help values = false /\ Cli.v_readCss values = false /\
  allb (fun c => Js.is_space c || Ascii.eqb c ",")
    (Cli.themesInput values positionals) = true.
Proof.
  rewrite <- splitThemes_nil. unfold Cli.parseArguments.
  destruct (Cli.v_help values); [split; [done|by intros [? _]]|].
  destruct (Cli.v_readCss values); simpl; [split; [done|by intros (_ & ? & _)]|].
  destruct (Cli.splitThemes _); simpl; [done|].
  split; [done|by intros (_ & _ & ?)].
Qed.

(** X15.  What [parseArguments] returns is fit for [main]: either the
    stylesheet is to be read or there is at least one explicit name; and
    every explicit name is not empty, carries no white space at either end
    and holds no comma. *)
Theorem parseArguments_returns (resolve : string -> string)
    (parsed : Cli.parseArgsResult) (arguments : Cli.ParsedArguments) :
  Cli.parseArguments resolve parsed = Cli.Return arguments ->
  (Cli.readCss arguments = true \/ Cli.themes arguments <> []) /\
  (forall t, In t (Cli.themes arguments) ->
     t <> EmptyString /\ Js.trim t = t /\ contains "," t = false).
Proof.
  unfold Cli.parseArguments. destruct parsed as [|values positionals]; [done|].
  destruct (Cli.v_help values); [done|].
  destruct (negb _ && _) eqn:E; [done|]. intros [= <-]. simpl. split.
  - destruct (Cli.v_readCss values); [by left|right]. simpl in E.
    by destruct (Cli.splitThemes _).
  - intros t [Hin Hne]%filter_In.
    apply in_map_iff in Hin as (piece & <- & Hpiece).
    destruct (split_pieces "," Js.is_space _ _ Hpiece) as [Hcomma _].
    split; [by apply nonEmpty_true|]. split; [apply trim_idem|].
    by apply contains_trim.
Qed.

Lemma parseArguments_returns_witness :
  let arguments :=
    {| Cli.themes := ["forest"; "dark"]; Cli.output := "/home/user/app/themes.json";
       Cli.readCss := false; Cli.cssPath := "/home/user/app/src/index.css" |} in
  (Cli.readCss arguments = true \/ Cli.themes arguments <> []) /\
  (forall t, In t (Cli.themes arguments) ->
     t <> EmptyString /\ Js.trim t = t /\ contains "," t = false).
Proof.
  apply (parseArguments_returns
           (fun p => Posix.join ["/home/user/app"; p])
           (Cli.ParseArgsReturns
              {| Cli.v_themes := " forest, dark ,"; Cli.v_output := "./themes.json";
                 Cli.v_readCss := false; Cli.v_cssPath := "src/index.css";
                 Cli.v_help := false |} [])).
  by vm_compute.
Defined.
